(** * Query resolution of the Pizza Hut chatbot (PizzaHut-chatbot.py)

    A shallow embedding of the chatbot's query resolver, of the part of
    Python's [difflib] it calls ([get_close_matches] with
    [SequenceMatcher]), and of the methods that write the store.

    Conventions of the embedding.
    - Text is a [string] of 8-bit characters read as ASCII; [lower] and
      [upper] act on the ASCII letters as [str.lower] and [str.upper] do on
      ASCII text.
    - Python integers are [Z].
    - A similarity score is the float [2.0 * M / T] in Python; the
      embedding keeps the exact fraction in [Q].  The two order scores and
      compare them with the cutoff in the same way as long as [T], the
      summed length of the two texts, stays below [2^26].
    - The store (the dictionary [self.data]) is a record with one field per
      key the code reads; numbers in it are integers. *)

From Stdlib Require Import ZArith QArith Ascii String List Lia.
From stdpp Require Import base option list list_numbers gmap sorting strings.

Close Scope Q_scope.
Open Scope Z_scope.

(** ** difflib *)

Module Difflib.

(** [s[i]]; [None] stands for Python's IndexError (and for the negative
    indices, which the matcher never forms). *)
Definition item (s : list ascii) (i : Z) : option ascii :=
  if i <? 0 then None else s !! Z.to_nat i.

Definition enumerate (s : list ascii) : list (Z * ascii) :=
  imap (λ i c, (Z.of_nat i, c)) s.

(** [SequenceMatcher.__chain_b] with [isjunk = None] and
    [autojunk = True], the settings of [SequenceMatcher()]: the junk set
    stays empty and only the popular elements are purged. *)
Definition index_b (b : list ascii) : gmap ascii (list Z) :=
  foldl (λ b2j '(i, elt), <[elt := default [] (b2j !! elt) ++ [i]]> b2j)
        ∅ (enumerate b).

Definition popular_of (n : Z) (b2j : gmap ascii (list Z)) : gset ascii :=
  let ntest := n / 100 + 1 in
  dom (filter (λ kv, ntest < Z.of_nat (length kv.2)) b2j).

Definition chain_b (b : list ascii) : gmap ascii (list Z) :=
  let b2j := index_b b in
  let n := Z.of_nat (length b) in
  if 200 <=? n then
    let popular := popular_of n b2j in
    filter (λ kv, kv.1 ∉ popular) b2j
  else b2j.

Definition bjunk : gset ascii := ∅.
Definition isbjunk (c : ascii) : bool := bool_decide (c ∈ bjunk).

(** [Match(a, b, size)] *)
Definition Match : Type := Z * Z * Z.
Definition size (m : Match) : Z := m.2.

Section matcher.
Variables (a b : list ascii) (b2j : gmap ascii (list Z)).

(** The inner [for j in b2j.get(a[i], nothing)] loop of
    [find_longest_match], with its [continue] and [break]. *)
Fixpoint scan_row (i blo bhi : Z) (j2len : gmap Z Z) (js : list Z)
    (newj2len : gmap Z Z) (best : Match) : gmap Z Z * Match :=
  match js with
  | [] => (newj2len, best)
  | j :: js' =>
      if j <? blo then scan_row i blo bhi j2len js' newj2len best
      else if bhi <=? j then (newj2len, best)
      else
        let k := default 0 (j2len !! (j - 1)) + 1 in
        let newj2len := <[j := k]> newj2len in
        let best := if size best <? k then (i - k + 1, j - k + 1, k)
                    else best in
        scan_row i blo bhi j2len js' newj2len best
  end.

Definition b2j_get (c : option ascii) : list Z :=
  match c with
  | Some c => default [] (b2j !! c)
  | None => []
  end.

(** The outer [for i in range(alo, ahi)] loop. *)
Definition scan_rows (alo ahi blo bhi : Z) : gmap Z Z * Match :=
  foldl (λ '(j2len, best) i,
           scan_row i blo bhi j2len (b2j_get (item a i)) ∅ best)
        (∅, (alo, blo, 0)) (seqZ alo (ahi - alo)).

(** [a[i] == b[j]] together with the junk test on [b[j]]; [junk] tells
    which of the two kinds of extension loops is running. *)
Definition extends (junk : bool) (i j : Z) : bool :=
  match item a i, item b j with
  | Some x, Some y => eqb (isbjunk y) junk && bool_decide (x = y)
  | _, _ => false
  end.

(** [while besti > alo and bestj > blo and ... a[besti-1] == b[bestj-1]].
    The loop runs at most [besti - alo] times, which is the fuel it is
    given. *)
Fixpoint extend_down (junk : bool) (fuel : nat) (alo blo : Z) (m : Match)
    : Match :=
  match fuel with
  | O => m
  | S fuel =>
      let '(besti, bestj, bestsize) := m in
      if (alo <? besti) && (blo <? bestj)
         && extends junk (besti - 1) (bestj - 1)
      then extend_down junk fuel alo blo
             (besti - 1, bestj - 1, bestsize + 1)
      else m
  end.

(** [while besti+bestsize < ahi and bestj+bestsize < bhi and ...]; at
    most [ahi - (besti + bestsize)] rounds. *)
Fixpoint extend_up (junk : bool) (fuel : nat) (ahi bhi : Z) (m : Match)
    : Match :=
  match fuel with
  | O => m
  | S fuel =>
      let '(besti, bestj, bestsize) := m in
      if (besti + bestsize <? ahi) && (bestj + bestsize <? bhi)
         && extends junk (besti + bestsize) (bestj + bestsize)
      then extend_up junk fuel ahi bhi (besti, bestj, bestsize + 1)
      else m
  end.

Definition down_fuel (alo : Z) (m : Match) : nat := Z.to_nat (m.1.1 - alo).
Definition up_fuel (ahi : Z) (m : Match) : nat :=
  Z.to_nat (ahi - (m.1.1 + size m)).

Definition find_longest_match (alo ahi blo bhi : Z) : Match :=
  let m := (scan_rows alo ahi blo bhi).2 in
  let m := extend_down false (down_fuel alo m) alo blo m in
  let m := extend_up false (up_fuel ahi m) ahi bhi m in
  let m := extend_down true (down_fuel alo m) alo blo m in
  extend_up true (up_fuel ahi m) ahi bhi m.

(** The [while queue] loop of [get_matching_blocks].  [queue] is kept
    with the last element of the Python list first, so that [pop()] and
    [append] both work at the head.  [None]: the fuel ran out. *)
Fixpoint matching_loop (fuel : nat) (queue : list (Z * Z * Z * Z))
    (matching_blocks : list Match) : option (list Match) :=
  match queue with
  | [] => Some matching_blocks
  | (alo, ahi, blo, bhi) :: queue =>
      match fuel with
      | O => None
      | S fuel =>
          let x := find_longest_match alo ahi blo bhi in
          let '(i, j, k) := x in
          if k =? 0 then matching_loop fuel queue matching_blocks
          else
            let queue :=
              if (alo <? i) && (blo <? j) then (alo, i, blo, j) :: queue
              else queue in
            let queue :=
              if (i + k <? ahi) && (j + k <? bhi)
              then (i + k, ahi, j + k, bhi) :: queue
              else queue in
            matching_loop fuel queue (matching_blocks ++ [x])
      end
  end.

(** Tuples sort lexicographically. *)
Definition match_le (x y : Match) : Prop :=
  x.1.1 < y.1.1 ∨ (x.1.1 = y.1.1 ∧
    (x.1.2 < y.1.2 ∨ (x.1.2 = y.1.2 ∧ x.2 ≤ y.2))).

#[local] Instance match_le_dec x y : Decision (match_le x y).
Proof. unfold match_le. apply _. Defined.

(** The loop that collapses adjacent blocks: the state is
    [(non_adjacent, (i1, j1, k1))]. *)
Definition flush (non_adjacent : list Match) (m1 : Match) : list Match :=
  if size m1 =? 0 then non_adjacent else non_adjacent ++ [m1].

Definition collapse_step (st : list Match * Match) (m2 : Match)
    : list Match * Match :=
  let '(non_adjacent, (i1, j1, k1)) := st in
  let '(i2, j2, k2) := m2 in
  if (i1 + k1 =? i2) && (j1 + k1 =? j2)
  then (non_adjacent, (i1, j1, k1 + k2))
  else (flush non_adjacent (i1, j1, k1), (i2, j2, k2)).

Definition collapse (matching_blocks : list Match) : list Match :=
  let '(non_adjacent, m1) :=
    foldl collapse_step ([], (0, 0, 0)) matching_blocks in
  flush non_adjacent m1.

(** Every round of the queue loop either ends a region or records a
    block of at least one element of [a]; [2 * len(a) + 1] rounds are
    enough (lemma [matching_loop_total]). *)
Definition loop_fuel : nat := 2 * length a + 1.

Definition get_matching_blocks : option (list Match) :=
  let la := Z.of_nat (length a) in
  let lb := Z.of_nat (length b) in
  blocks ← matching_loop loop_fuel [(0, la, 0, lb)] [];
  Some (collapse (merge_sort match_le blocks) ++ [(la, lb, 0)]).

End matcher.

(** [_calculate_ratio] *)
Definition calculate_ratio (matches length : Z) : Q :=
  if length =? 0 then 1%Q else Qmake (2 * matches) (Z.to_pos length).

Definition sum_sizes (blocks : list Match) : Z :=
  foldr (λ m acc, size m + acc) 0 blocks.

(** [SequenceMatcher.ratio], for [a] and [b] as set by [set_seq1] and
    [set_seq2]. *)
Definition ratio (a b : list ascii) : option Q :=
  blocks ← get_matching_blocks a b (chain_b b);
  Some (calculate_ratio (sum_sizes blocks)
          (Z.of_nat (length a) + Z.of_nat (length b))).

Definition fullbcount_of (b : list ascii) : gmap ascii Z :=
  foldl (λ fullbcount elt,
           <[elt := default 0 (fullbcount !! elt) + 1]> fullbcount) ∅ b.

Definition quick_step (fullbcount : gmap ascii Z)
    (st : gmap ascii Z * Z) (elt : ascii) : gmap ascii Z * Z :=
  let '(avail, matches) := st in
  let numb := match avail !! elt with
              | Some numb => numb
              | None => default 0 (fullbcount !! elt)
              end in
  (<[elt := numb - 1]> avail, if 0 <? numb then matches + 1 else matches).

Definition quick_ratio (a b : list ascii) : Q :=
  let fullbcount := fullbcount_of b in
  let '(_, matches) := foldl (quick_step fullbcount) (∅, 0) a in
  calculate_ratio matches (Z.of_nat (length a) + Z.of_nat (length b)).

Definition real_quick_ratio (a b : list ascii) : Q :=
  let la := Z.of_nat (length a) in
  let lb := Z.of_nat (length b) in
  calculate_ratio (Z.min la lb) (la + lb).

(** Python compares the [(score, x)] tuples of [result] from the left:
    the scores decide unless they are equal, then the texts do, by code
    point. *)
Definition tuple_gt (t1 t2 : Q * string) : bool :=
  match Qcompare t1.1 t2.1 with
  | Gt => true
  | Lt => false
  | Eq => match String.compare t1.2 t2.2 with Gt => true | _ => false end
  end.

(** [max(it, default=sentinel)]: the first of the greatest elements. *)
Definition py_max (l : list (Q * string)) : option (Q * string) :=
  match l with
  | [] => None
  | t :: l => Some (foldl (λ best t, if tuple_gt t best then t else best) t l)
  end.

(** [heapq.nlargest(1, result)] *)
Definition nlargest1 (result : list (Q * string)) : list (Q * string) :=
  match py_max result with
  | None => []
  | Some t => [t]
  end.

Definition ge_cutoff (cutoff r : Q) : bool := Qle_bool cutoff r.

(** The body of the [for x in possibilities] loop: [s.set_seq1(x)] and
    the three tests.  [None]: [ratio] ran out of fuel. *)
Definition close_enough (cutoff : Q) (word x : string)
    : option (option (Q * string)) :=
  let a := list_ascii_of_string x in
  let b := list_ascii_of_string word in
  if ge_cutoff cutoff (real_quick_ratio a b)
     && ge_cutoff cutoff (quick_ratio a b)
  then r ← ratio a b;
       Some (if ge_cutoff cutoff r then Some (r, x) else None)
  else Some None.

Fixpoint candidates (cutoff : Q) (word : string) (possibilities : list string)
    : option (list (Q * string)) :=
  match possibilities with
  | [] => Some []
  | x :: possibilities =>
      c ← close_enough cutoff word x;
      result ← candidates cutoff word possibilities;
      Some (match c with Some t => t :: result | None => result end)
  end.

(** [get_close_matches(word, possibilities, n=1, cutoff)] *)
Definition get_close_matches (word : string) (possibilities : list string)
    (cutoff : Q) : option (list string) :=
  result ← candidates cutoff word possibilities;
  Some (snd <$> nlargest1 result).

End Difflib.


(** ** Text *)

Module Text.

Definition nl : string := String "010"%char "".

Definition lower_char (c : ascii) : ascii :=
  let n := nat_of_ascii c in
  if ((65 <=? n) && (n <=? 90))%nat then ascii_of_nat (n + 32) else c.

Definition upper_char (c : ascii) : ascii :=
  let n := nat_of_ascii c in
  if ((97 <=? n) && (n <=? 122))%nat then ascii_of_nat (n - 32) else c.

Fixpoint map_chars (f : ascii → ascii) (s : string) : string :=
  match s with
  | EmptyString => EmptyString
  | String c s => String (f c) (map_chars f s)
  end.

(** [str.lower], [str.upper] *)
Definition lower : string → string := map_chars lower_char.
Definition upper : string → string := map_chars upper_char.

(** [needle in haystack] *)
Fixpoint contains (needle haystack : string) : bool :=
  String.prefix needle haystack
  || match haystack with
     | EmptyString => false
     | String _ haystack => contains needle haystack
     end.

(** The characters [str.strip()] removes: tab to carriage return, the
    four separators 28 to 31, and the space. *)
Definition is_space (c : ascii) : bool :=
  let n := nat_of_ascii c in
  (((9 <=? n) && (n <=? 13)) || ((28 <=? n) && (n <=? 32)))%nat.

Fixpoint lstrip (s : string) : string :=
  match s with
  | String c s' => if is_space c then lstrip s' else s
  | EmptyString => EmptyString
  end.

Fixpoint rstrip (s : string) : string :=
  match s with
  | String c s' =>
      match rstrip s' with
      | EmptyString => if is_space c then EmptyString else String c EmptyString
      | r => String c r
      end
  | EmptyString => EmptyString
  end.

Definition strip (s : string) : string := rstrip (lstrip s).

Definition digit_char (d : Z) : ascii := ascii_of_nat (48 + Z.to_nat d).

(** The decimal digits of [n >= 0], most significant first; a number
    below [2^fuel] has at most [fuel] digits. *)
Fixpoint digits_from (fuel : nat) (n : Z) (acc : string) : string :=
  match fuel with
  | O => acc
  | S fuel =>
      let acc := String (digit_char (n mod 10)) acc in
      if n <? 10 then acc else digits_from fuel (n / 10) acc
  end.

Definition digits (n : Z) : string :=
  digits_from (S (Z.to_nat (Z.log2 n))) n "".

(** [str(z)], as an f-string renders an integer field. *)
Definition str_int (z : Z) : string :=
  if z <? 0 then "-" +:+ digits (- z) else digits z.

Fixpoint zeros (n : nat) : string :=
  match n with
  | O => ""
  | S n => String "0" (zeros n)
  end.

Definition zfill (width : nat) (s : string) : string :=
  zeros (width - String.length s) +:+ s.

(** [format(z, "03d")]: the sign counts in the width. *)
Definition format_03d (z : Z) : string :=
  if z <? 0 then "-" +:+ zfill 2 (digits (- z)) else zfill 3 (digits z).

End Text.

(** ** The store

    The store is the dictionary that [create_default_data] lays out, with
    its keys as record fields: a store read from a data file is assumed to
    have this layout, with every key that the methods index present.  In
    particular the menu has the three categories pizzas, sides and drinks
    and no others. *)

Record RestaurantInfo := {
  info_name : string;
  info_phone : string;
  info_hours : gmap string string
}.

Record Pizza := {
  pizza_id : string;
  pizza_name : string;
  pizza_description : string;
  price_regular : Z;
  price_large : Z;
  price_family : Z
}.

Record Item := {
  item_name : string;
  item_description : string;
  item_price : Z
}.

Record Menu := {
  pizzas : list Pizza;
  sides : list Item;
  drinks : list Item
}.

Record Zone := {
  zone_area : string;
  zone_delivery_fee : Z;
  zone_min_order : Z;
  zone_estimated_time : string
}.

Record Promotion := {
  promo_is_active : option bool;
  promo_title : string;
  promo_description : string
}.

Record OrderItem := { item_total : Z }.

Record Order := {
  order_id : string;
  order_customer_name : string;
  order_phone : string;
  order_address : string;
  order_items : list OrderItem;
  order_subtotal : Z;
  order_delivery_fee : Z;
  order_status : string;
  order_time : string;
  order_estimated_delivery : string
}.

Record QA := {
  question : string;
  answer : string;
  category : string;
  added_date : string
}.

Record Feedback := {
  feedback_order_id : string;
  feedback_rating : Z;
  feedback_comment : string;
  feedback_date : string
}.

Record PopularItem := {
  popular_item_id : string;
  popular_order_count : Z
}.

Record Analytics := {
  popular_items : list PopularItem;
  peak_hours : list string;
  busiest_days : list string
}.

(** [self.data] *)
Record Data := {
  restaurant_info : RestaurantInfo;
  menu : Menu;
  delivery_zones : list Zone;
  promotions : list Promotion;
  orders : list Order;
  questions : list QA;
  customer_feedback : list Feedback;
  analytics : Analytics;
  staff_notes : list string
}.

(** The data file: absent, holding the JSON text of a store, or present
    without a JSON document in it (what [open(..., 'w')] leaves until
    [json.dump] has written).  The JSON text is not modelled: [Json d]
    stands for the text that [json.dump] writes for [d], which
    [json.load] is taken to read back as [d]. *)
Inductive File :=
  | Absent
  | Blank
  | Json (d : Data).

(** The chatbot object and its surroundings: the file named by
    [self.data_file], the attribute [self.data] ([None] until [__init__]
    has assigned it), the lines still to be read from the terminal and the
    lines printed so far. *)
Record State := {
  disk : File;
  self_data : option Data;
  stdin : list string;
  stdout : list string
}.

Inductive Exn :=
  | AttributeError
  | JSONDecodeError
  | EOFError.

Inductive Outcome (A : Type) :=
  | Returns (x : A) (s : State)
  | Raises (e : Exn) (s : State)
  | OutOfFuel.
Arguments Returns {A} x s.
Arguments Raises {A} e s.
Arguments OutOfFuel {A}.

Definition M (A : Type) : Type := State → Outcome A.

#[global] Instance M_ret : MRet M := λ A x s, Returns x s.
#[global] Instance M_bind : MBind M := λ A B f m s,
  match m s with
  | Returns x s' => f x s'
  | Raises e s' => Raises e s'
  | OutOfFuel => OutOfFuel
  end.

#[global] Instance M_fmap : FMap M := λ A B f m s,
  match m s with
  | Returns x s' => Returns (f x) s'
  | Raises e s' => Raises e s'
  | OutOfFuel => OutOfFuel
  end.

Definition raise {A} (e : Exn) : M A := λ s, Raises e s.

(** Reading the attribute [self.data]. *)
Definition get_data : M Data := λ s,
  match self_data s with
  | Some d => Returns d s
  | None => Raises AttributeError s
  end.

Definition set_data (d : Data) : M unit := λ s,
  Returns () {| disk := disk s; self_data := Some d;
                stdin := stdin s; stdout := stdout s |}.

Definition set_disk (f : File) : M unit := λ s,
  Returns () {| disk := f; self_data := self_data s;
                stdin := stdin s; stdout := stdout s |}.

Definition get_disk : M File := λ s, Returns (disk s) s.

Definition print (line : string) : M unit := λ s,
  Returns () {| disk := disk s; self_data := self_data s;
                stdin := stdin s; stdout := stdout s ++ [line] |}.

(** [input(prompt)] *)
Definition input (prompt : string) : M string := λ s,
  let out := stdout s ++ [prompt] in
  match stdin s with
  | [] => Raises EOFError {| disk := disk s; self_data := self_data s;
                             stdin := []; stdout := out |}
  | line :: rest => Returns line {| disk := disk s; self_data := self_data s;
                                    stdin := rest; stdout := out |}
  end.

(** A library call that the embedding runs on fuel. *)
Definition finished {A} (r : option A) : M A := λ s,
  match r with
  | Some x => Returns x s
  | None => OutOfFuel
  end.

(** ** The chatbot *)

Import Text.

(** [save_data]: [open(..., 'w')] empties the file before [json.dump]
    reads [self.data].  Opening the file and writing to it are taken to
    succeed; an error of the file system is outside the model. *)
Definition save_data : M unit :=
  set_disk Blank;;
  d ← get_data;
  set_disk (Json d).

Definition default_data : Data := {|
  restaurant_info := {|
    info_name := "Pizza Hut";
    info_phone := "(123) 456-7890";
    info_hours := {[ "monday" := "11:00 AM - 11:00 PM" ]}
  |};
  menu := {| pizzas := []; sides := []; drinks := [] |};
  delivery_zones := [];
  promotions := [];
  orders := [];
  questions := [];
  customer_feedback := [];
  analytics := {| popular_items := []; peak_hours := []; busiest_days := [] |};
  staff_notes := []
|}.

Definition create_default_data : M Data :=
  save_data;;
  mret default_data.

Definition load_data : M Data :=
  f ← get_disk;
  match f with
  | Json d => mret d
  | Blank => raise JSONDecodeError
  | Absent =>
      print "Creating new data file...";;
      create_default_data
  end.

(** [PizzaHutChatbot.__init__] *)
Definition init : M unit :=
  d ← load_data;
  set_data d.

Definition pizza_line (item : Pizza) : string :=
  let prices := "RM" +:+ str_int (price_regular item) +:+ "/RM"
                +:+ str_int (price_large item) +:+ "/RM"
                +:+ str_int (price_family item) in
  "• " +:+ pizza_name item +:+ " - " +:+ prices +:+ " (R/L/F)" +:+ nl
  +:+ "  " +:+ pizza_description item +:+ nl.

Definition item_line (item : Item) : string :=
  "• " +:+ item_name item +:+ " - RM" +:+ str_int (item_price item) +:+ nl
  +:+ "  " +:+ item_description item +:+ nl.

Definition menu_lines {A} (line : A → string) (category : string)
    (items : list A) : string :=
  match items with
  | [] => "No " +:+ category +:+ " available at the moment."
  | _ => foldl (λ result item, result +:+ line item)
               ("🍕 " +:+ upper category +:+ ":" +:+ nl) items
  end.

(** [get_menu_by_category].  The keys of [self.data["menu"]] are the
    three fields of [Menu], so the test [category not in
    self.data["menu"]] is the comparison with these three names. *)
Definition get_menu_by_category (category : string) : M string :=
  d ← get_data;
  if String.eqb category "pizzas"
  then mret (menu_lines pizza_line category (pizzas (menu d)))
  else if String.eqb category "sides"
  then mret (menu_lines item_line category (sides (menu d)))
  else if String.eqb category "drinks"
  then mret (menu_lines item_line category (drinks (menu d)))
  else mret "Sorry, that category doesn't exist.".

Definition zone_line (zone : Zone) : string :=
  let fee_text := if zone_delivery_fee zone =? 0 then "FREE"
                  else "RM" +:+ str_int (zone_delivery_fee zone) in
  "📍 " +:+ zone_area zone +:+ ": Delivery " +:+ fee_text
  +:+ " (Min order: RM" +:+ str_int (zone_min_order zone)
  +:+ ", Time: " +:+ zone_estimated_time zone +:+ ")".

Definition check_delivery_area (area : string) : M string :=
  d ← get_data;
  match find (λ zone, contains (lower area) (lower (zone_area zone)))
             (delivery_zones d) with
  | Some zone => mret (zone_line zone)
  | None =>
      d ← get_data;
      mret ("Please call us to check if we deliver to your area: "
            +:+ info_phone (restaurant_info d))
  end.

Definition get_active_promotions : M string :=
  d ← get_data;
  let active_promos :=
    filter (λ p, default false (promo_is_active p) = true) (promotions d) in
  match active_promos with
  | [] => mret "No active promotions at the moment."
  | _ =>
      mret (foldl (λ result promo,
                     result +:+ "• " +:+ promo_title promo +:+ ": "
                     +:+ promo_description promo +:+ nl)
                  ("🎉 CURRENT DEALS:" +:+ nl) active_promos)
  end.

Definition popular_line (pizzas : list Pizza) (item : PopularItem) : string :=
  let item_name :=
    match find (λ pizza, String.eqb (pizza_id pizza) (popular_item_id item))
               pizzas with
    | Some pizza => pizza_name pizza
    | None => "Unknown Item"
    end in
  "• " +:+ item_name +:+ " (" +:+ str_int (popular_order_count item)
  +:+ " orders)" +:+ nl.

Definition get_popular_items : M string :=
  d ← get_data;
  match popular_items (analytics d) with
  | [] => mret "Our most popular items are Pepperoni and Margherita pizzas!"
  | _ =>
      d ← get_data;
      mret (foldl (λ result item,
                     result +:+ popular_line (pizzas (menu d)) item)
                  ("🔥 POPULAR ITEMS:" +:+ nl)
                  (take 3 (popular_items (analytics d))))
  end.

Definition with_orders (d : Data) (os : list Order) : Data := {|
  restaurant_info := restaurant_info d; menu := menu d;
  delivery_zones := delivery_zones d; promotions := promotions d;
  orders := os; questions := questions d;
  customer_feedback := customer_feedback d; analytics := analytics d;
  staff_notes := staff_notes d
|}.

Definition with_questions (d : Data) (qs : list QA) : Data := {|
  restaurant_info := restaurant_info d; menu := menu d;
  delivery_zones := delivery_zones d; promotions := promotions d;
  orders := orders d; questions := qs;
  customer_feedback := customer_feedback d; analytics := analytics d;
  staff_notes := staff_notes d
|}.

Definition with_feedback (d : Data) (fs : list Feedback) : Data := {|
  restaurant_info := restaurant_info d; menu := menu d;
  delivery_zones := delivery_zones d; promotions := promotions d;
  orders := orders d; questions := questions d;
  customer_feedback := fs; analytics := analytics d;
  staff_notes := staff_notes d
|}.

(** [now] and [eta] are the readings [datetime.now().isoformat()] and
    [(datetime.now() + timedelta(minutes=40)).isoformat()]. *)
Definition add_customer_order (now eta : string)
    (customer_info : gmap string string) (items : list OrderItem) : M string :=
  d ← get_data;
  let order_id := "ORD" +:+ format_03d (Z.of_nat (length (orders d)) + 1) in
  let new_order := {|
    order_id := order_id;
    order_customer_name := default "" (customer_info !! "name");
    order_phone := default "" (customer_info !! "phone");
    order_address := default "" (customer_info !! "address");
    order_items := items;
    order_subtotal := foldl (λ acc item, acc + item_total item) 0 items;
    order_delivery_fee := 0;
    order_status := "received";
    order_time := now;
    order_estimated_delivery := eta
  |} in
  d ← get_data;
  set_data (with_orders d (orders d ++ [new_order]));;
  save_data;;
  mret order_id.

Definition add_feedback (now : string) (order_id : string) (rating : Z)
    (comment : string) : M string :=
  let feedback := {|
    feedback_order_id := order_id;
    feedback_rating := rating;
    feedback_comment := comment;
    feedback_date := now
  |} in
  d ← get_data;
  set_data (with_feedback d (customer_feedback d ++ [feedback]));;
  save_data;;
  mret "Thank you for your feedback!".

Definition areas : list string := ["klcc"; "pj"; "subang"; "petaling"].
Definition promo_words : list string :=
  ["deal"; "promotion"; "discount"; "offer"].

(** [any(x in text for x in words)] *)
Definition any_in (words : list string) (text : string) : bool :=
  existsb (λ w, contains w text) words.

Definition cutoff : Q := 6 # 10.

(** The knowledge-base part of [handle_query], lines 167 to 176. *)
Definition check_knowledge_base (user_input_lower : string)
    : M (option string) :=
  d ← get_data;
  let questions_ := question <$> questions d in
  best_match ← finished
    (Difflib.get_close_matches user_input_lower questions_ cutoff);
  match best_match with
  | best :: _ =>
      d ← get_data;
      match find (λ q, String.eqb (question q) best) (questions d) with
      | Some q => mret (Some (answer q))
      | None => mret None
      end
  | [] => mret None
  end.

Definition handle_query (user_input : string) : M (option string) :=
  let user_input_lower := lower user_input in
  if contains "pizza" user_input_lower
     && (contains "menu" user_input_lower || contains "what" user_input_lower)
  then Some <$> get_menu_by_category "pizzas"
  else if contains "side" user_input_lower
          || contains "appetizer" user_input_lower
  then Some <$> get_menu_by_category "sides"
  else if contains "drink" user_input_lower
          || contains "beverage" user_input_lower
  then Some <$> get_menu_by_category "drinks"
  else
    match (if contains "deliver" user_input_lower
              && any_in areas user_input_lower
           then find (λ area, contains area user_input_lower) areas
           else None) with
    | Some area => Some <$> check_delivery_area area
    | None =>
        if any_in promo_words user_input_lower
        then Some <$> get_active_promotions
        else if contains "popular" user_input_lower
                || contains "recommend" user_input_lower
        then Some <$> get_popular_items
        else if contains "hour" user_input_lower
                || contains "open" user_input_lower
        then
          d ← get_data;
          let hours := info_hours (restaurant_info d) in
          mret (Some ("We're open: "
                      +:+ default "Please call for hours" (hours !! "monday")))
        else if contains "phone" user_input_lower
                || contains "call" user_input_lower
        then
          d ← get_data;
          mret (Some ("Call us at: " +:+ info_phone (restaurant_info d)))
        else check_knowledge_base user_input_lower
    end.

Definition learn_new_response (now : string) (question answer : string)
    : M unit :=
  let new_qa := {|
    question := lower question;
    answer := answer;
    category := "general";
    added_date := now
  |} in
  d ← get_data;
  set_data (with_questions d (questions d ++ [new_qa]));;
  save_data.

(** Python's truth value of the response: [None] and the empty text are
    false. *)
Definition truthy (response : option string) : bool :=
  match response with
  | Some (String _ _) => true
  | _ => false
  end.

Definition nonempty (s : string) : bool :=
  match s with
  | EmptyString => false
  | _ => true
  end.

(** One round of the [while True] loop of [run_chatbot]; [true]: the loop
    goes on, [false]: [break]. *)
Definition chat_round (now : string) : M bool :=
  line ← input (nl +:+ "🍕 You: ");
  let user_input := strip line in
  if String.eqb (lower user_input) "quit"
  then print "🍕 Bot: Thanks for choosing Pizza Hut! Have a great day! 🍕";;
       mret false
  else if negb (nonempty user_input) then mret true
  else
    response ← handle_query user_input;
    if truthy response
    then print ("🍕 Bot: " +:+ default "" response);; mret true
    else
      print "🍕 Bot: I don't have that information yet. Can you help me learn?";;
      line ← input "📝 Please provide the answer, or type 'skip': ";
      let new_answer := strip line in
      if negb (String.eqb (lower new_answer) "skip") && nonempty new_answer
      then learn_new_response now user_input new_answer;;
           print "🍕 Bot: Thank you! I learned something new!";;
           mret true
      else mret true.

Definition banner : list string :=
  [ "🍕 Welcome to Pizza Hut Delivery! 🍕";
    "I can help you with:";
    "• Menu and prices (try 'show pizza menu')";
    "• Delivery areas (try 'deliver to KLCC')";
    "• Current promotions (try 'any deals?')";
    "• Popular recommendations";
    "• Store hours and contact info";
    nl +:+ "Type 'quit' to exit or ask me anything!";
    "--------------------------------------------------" ].

Fixpoint chat_loop (now : string) (fuel : nat) : M unit :=
  match fuel with
  | O => λ _, OutOfFuel
  | S fuel =>
      go_on ← chat_round now;
      if go_on : bool then chat_loop now fuel else mret ()
  end.

(** [run_chatbot]; every round reads a line, so the loop ends, by [quit]
    or by the end of the input, within [len(stdin) + 1] rounds. *)
Definition run_chatbot (now : string) : M unit :=
  foldr (λ line rest, print line;; rest) (mret ()) banner;;
  lines ← (λ s, Returns (stdin s) s) : M (list string);
  chat_loop now (S (length lines)).

(** ** The resolver as the specification describes it

    The specification presents the chain of conditionals of [handle_query]
    as an ordered sequence of rules, each a predicate on the normalized
    input with a resolver, tried in order until one predicate holds, and
    followed by the knowledge base.  The definitions below follow that
    description; [handle_query_router] compares them with the code. *)

Record IntentRule := {
  predicate : string → bool;
  resolve : string → M (option string)
}.

Definition pizza_rule : IntentRule := {|
  predicate u := contains "pizza" u && (contains "menu" u || contains "what" u);
  resolve _ := Some <$> get_menu_by_category "pizzas"
|}.

Definition sides_rule : IntentRule := {|
  predicate u := contains "side" u || contains "appetizer" u;
  resolve _ := Some <$> get_menu_by_category "sides"
|}.

Definition drinks_rule : IntentRule := {|
  predicate u := contains "drink" u || contains "beverage" u;
  resolve _ := Some <$> get_menu_by_category "drinks"
|}.

Definition delivery_rule : IntentRule := {|
  predicate u := contains "deliver" u && any_in areas u;
  resolve u :=
    match find (λ area, contains area u) areas with
    | Some area => Some <$> check_delivery_area area
    | None => mret None
    end
|}.

Definition promotions_rule : IntentRule := {|
  predicate u := any_in promo_words u;
  resolve _ := Some <$> get_active_promotions
|}.

Definition popular_rule : IntentRule := {|
  predicate u := contains "popular" u || contains "recommend" u;
  resolve _ := Some <$> get_popular_items
|}.

Definition hours_rule : IntentRule := {|
  predicate u := contains "hour" u || contains "open" u;
  resolve _ :=
    d ← get_data;
    mret (Some ("We're open: "
                +:+ default "Please call for hours"
                      (info_hours (restaurant_info d) !! "monday")))
|}.

Definition phone_rule : IntentRule := {|
  predicate u := contains "phone" u || contains "call" u;
  resolve _ :=
    d ← get_data;
    mret (Some ("Call us at: " +:+ info_phone (restaurant_info d)))
|}.

Definition intent_rules : list IntentRule :=
  [ pizza_rule; sides_rule; drinks_rule; delivery_rule;
    promotions_rule; popular_rule; hours_rule; phone_rule ].

(** First match wins; without a match the knowledge base answers. *)
Definition router (rules : list IntentRule) (u : string) : M (option string) :=
  match find (λ rule, predicate rule u) rules with
  | Some rule => resolve rule u
  | None => check_knowledge_base u
  end.

(** [bestMatch(normalizedInput, corpus)] of the specification: the text
    that [get_close_matches] returns at the cutoff 0.6, if any. *)
Definition bestMatch (normalizedInput : string) (corpus : list string)
    : option (option string) :=
  head <$> Difflib.get_close_matches normalizedInput corpus cutoff.

(** The similarity score of a stored text [x] against the input, as
    [get_close_matches] computes it: [s.set_seq2(word)], [s.set_seq1(x)]
    and [s.ratio()], so [x] is the first sequence and the input the
    second. *)
Definition score (normalizedInput x : string) : option Q :=
  Difflib.ratio (list_ascii_of_string x) (list_ascii_of_string normalizedInput).

(** The value of a text of decimal digits. *)
Definition digit_value (c : ascii) : Z := Z.of_nat (nat_of_ascii c) - 48.

Definition is_digit (c : ascii) : bool :=
  ((48 <=? nat_of_ascii c) && (nat_of_ascii c <=? 57))%nat.

Fixpoint decimal_value_from (acc : Z) (s : string) : Z :=
  match s with
  | EmptyString => acc
  | String c s => decimal_value_from (10 * acc + digit_value c) s
  end.

Definition decimal_value : string → Z := decimal_value_from 0.

Fixpoint all_digits (s : string) : bool :=
  match s with
  | EmptyString => true
  | String c s => is_digit c && all_digits s
  end.

(** [s] is [n] zero-padded to three digits: decimal digits of value [n],
    at least three of them, and more than three only without a leading
    zero. *)
Definition zero_padded_3 (n : Z) (s : string) : Prop :=
  all_digits s = true ∧ decimal_value s = n
  ∧ (3 ≤ String.length s)%nat
  ∧ ((3 < String.length s)%nat → String.get 0 s ≠ Some "0"%char).

(** * Properties of the matcher *)

#[local] Set Warnings "-clear-no-such-hyp".

Section item_facts.
Implicit Types (s : list ascii) (i : Z) (c : ascii).

Lemma item_Some s i c :
  Difflib.item s i = Some c ↔ 0 ≤ i ∧ s !! Z.to_nat i = Some c.
Proof.
  unfold Difflib.item. destruct (Z.ltb_spec i 0); split.
  - discriminate.
  - intros [? _]. lia.
  - auto.
  - intros [_ ?]. done.
Qed.

Lemma item_lt s i c : Difflib.item s i = Some c → 0 ≤ i < Z.of_nat (length s).
Proof.
  intros [? Hl]%item_Some. apply lookup_lt_Some in Hl. lia.
Qed.

Lemma item_is_Some s i :
  0 ≤ i < Z.of_nat (length s) → is_Some (Difflib.item s i).
Proof.
  intros ?. unfold Difflib.item.
  destruct (Z.ltb_spec i 0); [lia|]. apply lookup_lt_is_Some. lia.
Qed.

Lemma item_snoc s c i x :
  Difflib.item (s ++ [x]) i = Some c ↔
  Difflib.item s i = Some c ∨ (i = Z.of_nat (length s) ∧ x = c).
Proof.
  rewrite !item_Some. split.
  - intros [? Hl]. apply lookup_app_Some in Hl as [Hl|[? Hl]]; [by auto|].
    right. apply list_lookup_singleton_Some in Hl as [? ?]. split; [lia|done].
  - intros [[? Hl]|[-> ->]].
    + split; [done|]. apply lookup_app_Some. by left.
    + split; [lia|]. rewrite Nat2Z.id. by apply list_lookup_middle.
Qed.

(** Two texts of the same length with the same items are the same text. *)
Lemma item_ext s1 s2 :
  length s1 = length s2 →
  (∀ i, 0 ≤ i < Z.of_nat (length s1) → Difflib.item s1 i = Difflib.item s2 i) →
  s1 = s2.
Proof.
  intros Hlen Hit. apply list_eq. intros n.
  destruct (decide (n < length s1)%nat) as [Hn|Hn].
  - specialize (Hit (Z.of_nat n)). unfold Difflib.item in Hit.
    destruct (Z.ltb_spec (Z.of_nat n) 0); [lia|].
    rewrite Nat2Z.id in Hit. apply Hit. lia.
  - rewrite !lookup_ge_None_2; [done|lia..].
Qed.
End item_facts.

(** ** The index [b2j] *)

(** [js] lists, in increasing order, the places of [c] in [b]. *)
Definition occurrences (b : list ascii) (c : ascii) (js : list Z) : Prop :=
  StronglySorted Z.lt js ∧ ∀ j, j ∈ js ↔ Difflib.item b j = Some c.

Section chain_b_facts.

Lemma index_b_snoc b x :
  Difflib.index_b (b ++ [x]) =
  <[x := default [] (Difflib.index_b b !! x) ++ [Z.of_nat (length b)]]>
    (Difflib.index_b b).
Proof.
  unfold Difflib.index_b, Difflib.enumerate.
  rewrite imap_app, foldl_app. simpl. by rewrite Nat.add_0_r.
Qed.

Lemma sorted_snoc (js : list Z) n :
  StronglySorted Z.lt js → Forall (λ j, j < n) js →
  StronglySorted Z.lt (js ++ [n]).
Proof.
  induction 1 as [|j js Hs IH Hall]; intros Hlt; simpl.
  - repeat constructor.
  - apply Forall_cons in Hlt as [? ?]. constructor; [by apply IH|].
    apply Forall_app. split; [done|]. by repeat constructor.
Qed.

Lemma occurrences_snoc_same b x js :
  occurrences b x js →
  occurrences (b ++ [x]) x (js ++ [Z.of_nat (length b)]).
Proof.
  intros [Hs Hm]. split.
  - apply sorted_snoc; [done|]. apply Forall_forall. intros j Hj.
    apply Hm, item_lt in Hj. lia.
  - intros j. rewrite elem_of_app, list_elem_of_singleton, item_snoc, Hm.
    naive_solver.
Qed.

Lemma occurrences_snoc_other b x c js :
  x ≠ c → occurrences b c js → occurrences (b ++ [x]) c js.
Proof.
  intros Hne [Hs Hm]. split; [done|]. intros j.
  rewrite item_snoc, Hm. naive_solver.
Qed.

Lemma index_b_occurrences b c :
  occurrences b c (default [] (Difflib.index_b b !! c)).
Proof.
  induction b as [|x b IH] using rev_ind.
  - split; [constructor|]. intros j. simpl. split; [by intros ?%elem_of_nil|].
    intros [? Hl]%item_Some. done.
  - rewrite index_b_snoc. destruct (decide (x = c)) as [->|Hne].
    + rewrite lookup_insert_eq. simpl. by apply occurrences_snoc_same.
    + rewrite lookup_insert_ne by done. by apply occurrences_snoc_other.
Qed.

Lemma chain_b_index b c js :
  Difflib.chain_b b !! c = Some js → Difflib.index_b b !! c = Some js.
Proof.
  unfold Difflib.chain_b. case_match; [|done].
  by intros [? _]%map_lookup_filter_Some.
Qed.

(** What [find_longest_match] relies on: a key of [b2j] maps to the
    places of that element in [b], in increasing order. *)
Lemma chain_b_occurrences b c js :
  Difflib.chain_b b !! c = Some js → occurrences b c js.
Proof.
  intros Hc%chain_b_index. pose proof (index_b_occurrences b c) as H.
  by rewrite Hc in H.
Qed.

End chain_b_facts.

(** ** [find_longest_match] returns a matching block of its region *)

Section find_facts.
Variables (a b : list ascii) (b2j : gmap ascii (list Z)).
Hypothesis b2j_occurrences : ∀ c js, b2j !! c = Some js → occurrences b c js.
Variables (alo ahi blo bhi : Z).
Hypothesis a_region : alo ≤ ahi.
Hypothesis b_region : blo ≤ bhi.

(** [a[p]] is a key of [b2j]: neither junk nor popular. *)
Definition indexed (p : Z) : Prop :=
  ∃ c, Difflib.item a p = Some c ∧ is_Some (b2j !! c).

(** [a[i-k+1 .. i]] and [b[j-k+1 .. j]] agree and are indexed. *)
Definition run_back (i j k : Z) : Prop :=
  ∀ t, 0 ≤ t < k →
    ∃ c, Difflib.item a (i - t) = Some c ∧ Difflib.item b (j - t) = Some c
         ∧ is_Some (b2j !! c).

Definition entry_ok (i j k : Z) : Prop :=
  1 ≤ k ∧ alo ≤ i - k + 1 ∧ blo ≤ j - k + 1 ∧ j < bhi ∧ run_back i j k.

(** The invariant of [j2len] after row [i]. *)
Definition row_ok (i : Z) (j2len : gmap Z Z) : Prop :=
  ∀ j k, j2len !! j = Some k → entry_ok i j k.

(** [a[i .. i+k)] and [b[j .. j+k)] agree. *)
Definition agree (i j k : Z) : Prop :=
  ∀ t, 0 ≤ t < k →
    ∃ c, Difflib.item a (i + t) = Some c ∧ Difflib.item b (j + t) = Some c.

Definition block_ok (m : Difflib.Match) : Prop :=
  alo ≤ m.1.1 ∧ blo ≤ m.1.2 ∧ 0 ≤ m.2 ∧ m.1.1 + m.2 ≤ ahi
  ∧ m.1.2 + m.2 ≤ bhi ∧ agree m.1.1 m.1.2 m.2.

Lemma entry_next i j k c :
  entry_ok (i - 1) (j - 1) k →
  Difflib.item a i = Some c → Difflib.item b j = Some c →
  is_Some (b2j !! c) → j < bhi →
  entry_ok i j (k + 1).
Proof.
  intros (? & ? & ? & ? & Hrun) Ha Hb Hc ?.
  repeat split; [lia..|]. intros t Ht.
  destruct (decide (t = 0)) as [->|?].
  - rewrite !Z.sub_0_r. eauto.
  - destruct (Hrun (t - 1)) as (c' & ? & ? & ?); [lia|].
    exists c'. replace (i - t) with (i - 1 - (t - 1)) by lia.
    by replace (j - t) with (j - 1 - (t - 1)) by lia.
Qed.

Lemma entry_first i j c :
  Difflib.item a i = Some c → Difflib.item b j = Some c →
  is_Some (b2j !! c) → alo ≤ i → blo ≤ j → j < bhi →
  entry_ok i j 1.
Proof.
  intros Ha Hb Hc ? ? ?. repeat split; [lia..|]. intros t Ht.
  assert (t = 0) as -> by lia. rewrite !Z.sub_0_r. eauto.
Qed.

(** The value the inner loop stores at [j]. *)
Lemma entry_new i j c prev :
  row_ok (i - 1) prev →
  Difflib.item a i = Some c → Difflib.item b j = Some c →
  is_Some (b2j !! c) → alo ≤ i → blo ≤ j → j < bhi →
  entry_ok i j (default 0 (prev !! (j - 1)) + 1).
Proof.
  intros Hprev ? ? ? ? ? ?. destruct (prev !! (j - 1)) as [k|] eqn:Hk; simpl.
  - apply Hprev in Hk. by eapply entry_next.
  - by eapply entry_first.
Qed.

Lemma entry_block i j k :
  i < ahi → entry_ok i j k → block_ok (i - k + 1, j - k + 1, k).
Proof.
  intros ? (? & ? & ? & ? & Hrun). unfold block_ok; simpl.
  repeat split; [lia..|]. intros t Ht.
  destruct (Hrun (k - 1 - t)) as (c & Ha & Hb & _); [lia|].
  exists c. replace (i - k + 1 + t) with (i - (k - 1 - t)) by lia.
  by replace (j - k + 1 + t) with (j - (k - 1 - t)) by lia.
Qed.

Lemma scan_row_ok i c prev js new best :
  Difflib.item a i = Some c → is_Some (b2j !! c) → alo ≤ i < ahi →
  (∀ j, j ∈ js → Difflib.item b j = Some c) →
  row_ok (i - 1) prev → row_ok i new → block_ok best →
  row_ok i (Difflib.scan_row i blo bhi prev js new best).1
  ∧ block_ok (Difflib.scan_row i blo bhi prev js new best).2.
Proof.
  intros Ha Hc Hi Hjs Hprev. revert new best.
  induction js as [|j js IH]; intros new best Hnew Hbest; simpl; [done|].
  assert (∀ j', j' ∈ js → Difflib.item b j' = Some c) as Hjs'
    by (intros j' ?; apply Hjs; by right).
  destruct (Z.ltb_spec j blo); [by apply IH|].
  destruct (Z.leb_spec bhi j); [done|].
  assert (entry_ok i j (default 0 (prev !! (j - 1)) + 1)) as Hent.
  { eapply entry_new; eauto; [apply Hjs; by left|lia]. }
  apply IH; [done| |].
  - intros j' k'. rewrite lookup_insert. case_decide as Hj.
    + intros [= <-]. by subst j'.
    + apply Hnew.
  - case_match; [|done]. apply entry_block; [lia|done].
Qed.

Lemma scan_row_nil i prev new best :
  Difflib.scan_row i blo bhi prev [] new best = (new, best).
Proof. done. Qed.

Lemma row_ok_empty i : row_ok i ∅.
Proof. intros j k. by rewrite lookup_empty. Qed.

(** One round of the outer loop. *)
Lemma row_step_ok i prev best :
  alo ≤ i < ahi → row_ok (i - 1) prev → block_ok best →
  let st := Difflib.scan_row i blo bhi prev
              (Difflib.b2j_get b2j (Difflib.item a i)) ∅ best in
  row_ok i st.1 ∧ block_ok st.2.
Proof.
  intros Hi Hprev Hbest. simpl.
  destruct (Difflib.item a i) as [c|] eqn:Ha; simpl;
    [|split; [apply row_ok_empty|done]].
  destruct (b2j !! c) as [js|] eqn:Hc; simpl;
    [|split; [apply row_ok_empty|done]].
  eapply scan_row_ok; eauto using row_ok_empty.
  intros j Hj. by apply (b2j_occurrences c js Hc).
Qed.

Lemma scan_rows_from_ok (n : nat) i prev best :
  alo ≤ i → i + Z.of_nat n ≤ ahi → row_ok (i - 1) prev → block_ok best →
  let st := foldl (λ '(j2len, best) i,
              Difflib.scan_row i blo bhi j2len
                (Difflib.b2j_get b2j (Difflib.item a i)) ∅ best)
            (prev, best) (seqZ i (Z.of_nat n)) in
  row_ok (i + Z.of_nat n - 1) st.1 ∧ block_ok st.2.
Proof.
  revert i prev best. induction n as [|n IH]; intros i prev best ? ? Hp Hb.
  - simpl. by rewrite Z.add_0_r.
  - rewrite seqZ_cons by lia. cbn [foldl].
    destruct (row_step_ok i prev best) as [Hr Hk]; [lia|done..|].
    destruct (Difflib.scan_row _ _ _ _ _ _ _) as [new best'].
    replace (Z.pred (Z.of_nat (S n))) with (Z.of_nat n) by lia.
    replace (i + Z.of_nat (S n) - 1) with (Z.succ i + Z.of_nat n - 1) by lia.
    apply IH; [lia..| |done].
    by replace (Z.succ i - 1) with i by lia.
Qed.

Lemma block_ok_start : block_ok (alo, blo, 0).
Proof. unfold block_ok; simpl. repeat split; try lia. intros t ?. lia. Qed.

Lemma scan_rows_ok :
  block_ok (Difflib.scan_rows a b2j alo ahi blo bhi).2.
Proof.
  unfold Difflib.scan_rows.
  replace (ahi - alo) with (Z.of_nat (Z.to_nat (ahi - alo))) by lia.
  apply scan_rows_from_ok; [lia..|apply row_ok_empty|apply block_ok_start].
Qed.

Lemma extends_agree junk i j :
  Difflib.extends a b junk i j = true →
  ∃ c, Difflib.item a i = Some c ∧ Difflib.item b j = Some c.
Proof.
  unfold Difflib.extends. destruct (Difflib.item a i) as [x|]; [|done].
  destruct (Difflib.item b j) as [y|]; [|done].
  intros [_ ->%bool_decide_eq_true]%andb_true_iff. eauto.
Qed.

Lemma extend_down_ok junk fuel m :
  block_ok m → block_ok (Difflib.extend_down a b junk fuel alo blo m).
Proof.
  revert m. induction fuel as [|fuel IH]; intros [[i j] k] Hm; simpl; [done|].
  case_match eqn:Hg; [|done]. apply IH.
  apply andb_true_iff in Hg as [[?%Z.ltb_lt ?%Z.ltb_lt]%andb_true_iff Hx].
  apply extends_agree in Hx as (c & ? & ?).
  destruct Hm as (? & ? & ? & ? & ? & Hag); simpl in *.
  unfold block_ok; simpl. repeat split; [lia..|]. intros t Ht.
  destruct (decide (t = 0)) as [->|?].
  - rewrite !Z.add_0_r. eauto.
  - destruct (Hag (t - 1)) as (c' & ? & ?); [lia|]. exists c'.
    replace (i - 1 + t) with (i + (t - 1)) by lia.
    by replace (j - 1 + t) with (j + (t - 1)) by lia.
Qed.

Lemma extend_up_ok junk fuel m :
  block_ok m → block_ok (Difflib.extend_up a b junk fuel ahi bhi m).
Proof.
  revert m. induction fuel as [|fuel IH]; intros [[i j] k] Hm; simpl; [done|].
  case_match eqn:Hg; [|done]. apply IH.
  apply andb_true_iff in Hg as [[?%Z.ltb_lt ?%Z.ltb_lt]%andb_true_iff Hx].
  apply extends_agree in Hx as (c & ? & ?).
  destruct Hm as (? & ? & ? & ? & ? & Hag); simpl in *.
  unfold block_ok; simpl. repeat split; [lia..|]. intros t Ht.
  destruct (decide (t = k)) as [->|?]; [eauto|]. apply Hag. lia.
Qed.

(** The block that [find_longest_match] returns lies in the region and
    pairs equal elements. *)
Lemma find_longest_match_ok :
  block_ok (Difflib.find_longest_match a b b2j alo ahi blo bhi).
Proof.
  unfold Difflib.find_longest_match.
  apply extend_up_ok, extend_down_ok, extend_up_ok, extend_down_ok,
    scan_rows_ok.
Qed.

End find_facts.

(** ** [find_longest_match] on a text compared with itself *)

Section diagonal_facts.
Variables (a : list ascii) (b2j : gmap ascii (list Z)).
Hypothesis b2j_occurrences : ∀ c js, b2j !! c = Some js → occurrences a c js.
Variables (lo hi : Z).
Hypothesis lo_nonneg : 0 ≤ lo.
Hypothesis lo_hi : lo ≤ hi.
Hypothesis hi_len : hi ≤ Z.of_nat (length a).

Definition kept (p : Z) : bool :=
  match Difflib.item a p with
  | Some c => bool_decide (is_Some (b2j !! c))
  | None => false
  end.

(** The length of the run of indexed elements that ends at [lo + n] and
    starts at [lo] or later. *)
Fixpoint run_from_lo (n : nat) : Z :=
  if kept (lo + Z.of_nat n)
  then match n with O => 0 | S n' => run_from_lo n' end + 1
  else 0.

Definition diag (p : Z) : Z :=
  if p <? lo then 0 else run_from_lo (Z.to_nat (p - lo)).

Lemma run_from_lo_nonneg n : 0 ≤ run_from_lo n.
Proof. induction n; simpl; case_match; lia. Qed.

Lemma diag_nonneg p : 0 ≤ diag p.
Proof. unfold diag. case_match; [lia|apply run_from_lo_nonneg]. Qed.

Lemma diag_step p :
  lo ≤ p → diag p = if kept p then diag (p - 1) + 1 else 0.
Proof.
  intros Hp. unfold diag. destruct (Z.ltb_spec p lo); [lia|].
  destruct (Z.to_nat (p - lo)) as [|n] eqn:Hn.
  - assert (p = lo) as -> by lia. simpl. rewrite Z.add_0_r.
    destruct (Z.ltb_spec (lo - 1) lo); [done|lia].
  - simpl. replace (lo + Z.of_nat (S n)) with p by lia.
    destruct (Z.ltb_spec (p - 1) lo); [lia|].
    by replace (Z.to_nat (p - 1 - lo)) with n by lia.
Qed.

Lemma kept_indexed p c :
  Difflib.item a p = Some c → is_Some (b2j !! c) → kept p = true.
Proof. intros Hp Hc. unfold kept. rewrite Hp. by apply bool_decide_eq_true. Qed.

(** The invariant of [j2len] after row [r]: no entry is longer than the
    run on the diagonal, and the diagonal entry is that run. *)
Definition diag_row (r : Z) (j2len : gmap Z Z) : Prop :=
  (∀ j k, j2len !! j = Some k → k ≤ diag (Z.min r j))
  ∧ default 0 (j2len !! r) = diag r.

Definition diag_best (r : Z) (best : Difflib.Match) : Prop :=
  best.1.1 = best.1.2 ∧ ∀ p, p ≤ r → diag p ≤ Difflib.size best.

Lemma diag_row_empty r : kept r = false ∨ r < lo → diag_row r ∅.
Proof.
  intros Hr. split; [intros j k; by rewrite lookup_empty|].
  rewrite lookup_empty. simpl. destruct Hr as [Hr|Hr].
  - destruct (decide (lo ≤ r)).
    + by rewrite diag_step, Hr.
    + unfold diag. destruct (Z.ltb_spec r lo); [done|lia].
  - unfold diag. destruct (Z.ltb_spec r lo); [done|lia].
Qed.

Lemma new_entry_bound r prev j :
  diag_row (r - 1) prev → lo ≤ j → lo ≤ r → kept (Z.min r j) = true →
  default 0 (prev !! (j - 1)) + 1 ≤ diag (Z.min r j).
Proof.
  intros [Hle _] ? ? Hk. rewrite diag_step, Hk by lia.
  replace (Z.min r j - 1) with (Z.min (r - 1) (j - 1)) by lia.
  destruct (prev !! (j - 1)) as [k|] eqn:Hj; simpl.
  - apply Hle in Hj. lia.
  - pose proof (diag_nonneg (Z.min (r - 1) (j - 1))). lia.
Qed.

Lemma scan_row_diag i c prev js new best :
  Difflib.item a i = Some c → is_Some (b2j !! c) → lo ≤ i < hi →
  StronglySorted Z.lt js →
  (∀ j, j ∈ js → Difflib.item a j = Some c) →
  diag_row (i - 1) prev →
  (∀ j k, new !! j = Some k → k ≤ diag (Z.min i j)) →
  diag_best (i - 1) best →
  (i ∈ js ∨ (new !! i = Some (diag i) ∧ diag i ≤ Difflib.size best
             ∧ ∀ j, j ∈ js → i < j)) →
  diag_row i (Difflib.scan_row i lo hi prev js new best).1
  ∧ diag_best i (Difflib.scan_row i lo hi prev js new best).2.
Proof.
  intros Ha Hc Hi Hs Hjs Hprev. revert new best.
  induction Hs as [|j js Hs IH Hall]; intros new best Hnew [Hd Hb] Hdone.
  - simpl. destruct Hdone as [?%elem_of_nil|(Hn & ? & _)]; [done|].
    split; [split; [done|by rewrite Hn]|]. split; [done|].
    intros p ?. destruct (decide (p = i)) as [->|]; [done|]. apply Hb. lia.
  - assert (∀ j', j' ∈ js → Difflib.item a j' = Some c) as Hjs'
      by (intros j' ?; apply Hjs; by right).
    assert (∀ j', j' ∈ js → j < j') as Hlt
      by (by apply Forall_forall).
    assert (Difflib.item a j = Some c) as Haj by (apply Hjs; by left).
    assert (kept i = true) as Hki by by eapply kept_indexed.
    assert (kept j = true) as Hkj by by eapply kept_indexed.
    simpl. destruct (Z.ltb_spec j lo).
    { apply IH; [done..|].
      destruct Hdone as [[->|?]%elem_of_cons|(? & ? & Hgt)]; [lia|by left|].
      right. repeat split; [done..|]. intros j' ?. apply Hgt. by right. }
    destruct (Z.leb_spec hi j).
    { destruct Hdone as [[->|Hin]%elem_of_cons|(Hn & ? & _)]; [lia| |].
      - apply Hlt in Hin. lia.
      - simpl. split; [split; [done|by rewrite Hn]|]. split; [done|].
        intros p ?. destruct (decide (p = i)) as [->|]; [done|].
        apply Hb. lia. }
    assert (default 0 (prev !! (j - 1)) + 1 ≤ diag (Z.min i j)) as Hbound.
    { apply new_entry_bound; [done|lia..|].
      destruct (Z.min_spec i j) as [[_ ->]|[_ ->]]; done. }
    assert (∀ j' k', <[j:=default 0 (prev !! (j - 1)) + 1]> new !! j' = Some k'
                     → k' ≤ diag (Z.min i j')) as Hnew'.
    { intros j' k'. rewrite lookup_insert. case_decide as Hj.
      - intros [= <-]. by subst j'.
      - apply Hnew. }
    destruct Hdone as [[->|Hin]%elem_of_cons|(Hn & Hsz & Hgt)].
    + (* the diagonal entry *)
      assert (default 0 (prev !! (j - 1)) + 1 = diag j) as Hk.
      { destruct Hprev as [_ ->]. by rewrite (diag_step j), Hkj by lia. }
      apply IH; [done..| |].
      * case_match eqn:Hcmp; split; simpl; [lia| |done|].
        -- intros p ?. apply Z.ltb_lt in Hcmp. specialize (Hb p).
           unfold Difflib.size in *. lia.
        -- intros p ?. by apply Hb.
      * right. rewrite lookup_insert_eq, Hk. split; [done|].
        split; [|done]. unfold Difflib.size.
        case_match eqn:Hcmp; simpl; [lia|]. apply Z.ltb_ge in Hcmp.
        unfold Difflib.size in Hcmp. lia.
    + (* left of the diagonal *)
      pose proof (Hlt _ Hin). rewrite Z.min_r in Hbound by lia.
      assert (diag j ≤ Difflib.size best) by (apply Hb; lia).
      destruct (Z.ltb_spec (Difflib.size best)
                  (default 0 (prev !! (j - 1)) + 1)); [lia|].
      apply IH; [done..|]. by left.
    + (* right of the diagonal *)
      assert (i < j) by (apply Hgt; by left).
      rewrite Z.min_l in Hbound by lia.
      destruct (Z.ltb_spec (Difflib.size best)
                  (default 0 (prev !! (j - 1)) + 1)); [lia|].
      apply IH; [done..|]. right. rewrite lookup_insert_ne by lia.
      repeat split; [done..|]. intros j' ?. apply Hgt. by right.
Qed.

Lemma row_step_diag i prev best :
  lo ≤ i < hi → diag_row (i - 1) prev → diag_best (i - 1) best →
  let st := Difflib.scan_row i lo hi prev
              (Difflib.b2j_get b2j (Difflib.item a i)) ∅ best in
  diag_row i st.1 ∧ diag_best i st.2.
Proof.
  intros Hi Hprev [Hd Hb]. simpl.
  destruct (item_is_Some a i) as [c Ha]; [lia|]. rewrite Ha. simpl.
  destruct (b2j !! c) as [js|] eqn:Hc; simpl.
  - destruct (b2j_occurrences c js Hc) as [Hs Hm].
    apply (scan_row_diag i c); [done|by rewrite Hc|done|done| |done| |done|].
    + intros j ?. by apply Hm.
    + intros j k. by rewrite lookup_empty.
    + left. by apply Hm.
  - assert (kept i = false) as Hk.
    { unfold kept. rewrite Ha, Hc. apply bool_decide_eq_false.
      by intros [? ?]. }
    split; [apply diag_row_empty; by left|]. split; [done|].
    intros p ?. destruct (decide (p = i)) as [->|]; [|apply Hb; lia].
    rewrite diag_step, Hk by lia. pose proof (diag_nonneg (lo - 1)).
    specialize (Hb (lo - 1)). lia.
Qed.

Lemma scan_rows_from_diag (n : nat) i prev best :
  lo ≤ i → i + Z.of_nat n ≤ hi →
  diag_row (i - 1) prev → diag_best (i - 1) best →
  let st := foldl (λ '(j2len, best) i,
              Difflib.scan_row i lo hi j2len
                (Difflib.b2j_get b2j (Difflib.item a i)) ∅ best)
            (prev, best) (seqZ i (Z.of_nat n)) in
  diag_best (i + Z.of_nat n - 1) st.2.
Proof.
  revert i prev best. induction n as [|n IH]; intros i prev best ? ? Hp Hb.
  - simpl. by rewrite Z.add_0_r.
  - rewrite seqZ_cons by lia. cbn [foldl].
    destruct (row_step_diag i prev best) as [Hr Hk]; [lia|done..|].
    destruct (Difflib.scan_row _ _ _ _ _ _ _) as [new best'].
    replace (Z.pred (Z.of_nat (S n))) with (Z.of_nat n) by lia.
    replace (i + Z.of_nat (S n) - 1) with (Z.succ i + Z.of_nat n - 1) by lia.
    apply IH; [lia..| |]; by replace (Z.succ i - 1) with i by lia.
Qed.

Lemma scan_rows_diag :
  (Difflib.scan_rows a b2j lo hi lo hi).2.1.1
  = (Difflib.scan_rows a b2j lo hi lo hi).2.1.2.
Proof.
  unfold Difflib.scan_rows.
  replace (hi - lo) with (Z.of_nat (Z.to_nat (hi - lo))) by lia.
  apply scan_rows_from_diag; [lia..| |].
  - apply diag_row_empty. right. lia.
  - split; [done|]. intros p ?. simpl. unfold diag.
    destruct (Z.ltb_spec p lo); [done|lia].
Qed.

Lemma extends_self p :
  lo ≤ p < hi → Difflib.extends a a false p p = true.
Proof.
  intros ?. unfold Difflib.extends.
  destruct (item_is_Some a p) as [c ->]; [lia|].
  by rewrite bool_decide_eq_true_2.
Qed.

Lemma extend_down_self fuel i k :
  Z.of_nat fuel = i - lo → i ≤ hi →
  Difflib.extend_down a a false fuel lo lo (i, i, k) = (lo, lo, k + (i - lo)).
Proof.
  revert i k. induction fuel as [|fuel IH]; intros i k Hf ?; simpl.
  - assert (i = lo) as -> by lia. f_equal. lia.
  - destruct (Z.ltb_spec lo i); [|lia]. simpl.
    rewrite extends_self by lia. rewrite IH by lia. f_equal. lia.
Qed.

Lemma extend_up_self fuel k :
  0 ≤ k → Z.of_nat fuel = hi - (lo + k) →
  Difflib.extend_up a a false fuel hi hi (lo, lo, k) = (lo, lo, hi - lo).
Proof.
  revert k. induction fuel as [|fuel IH]; intros k ? Hf; simpl.
  - f_equal. lia.
  - destruct (Z.ltb_spec (lo + k) hi); [|lia]. simpl.
    rewrite extends_self by lia. by rewrite IH by lia.
Qed.

(** A region on the diagonal is one block. *)
Lemma find_longest_match_self :
  Difflib.find_longest_match a a b2j lo hi lo hi = (lo, lo, hi - lo).
Proof.
  unfold Difflib.find_longest_match.
  pose proof (scan_rows_ok a a b2j b2j_occurrences lo hi lo hi lo_hi lo_hi)
    as (? & ? & ? & ? & ? & _).
  pose proof scan_rows_diag as Hd.
  destruct (Difflib.scan_rows a b2j lo hi lo hi) as [m [[i j] k]].
  simpl in *. subst j.
  assert (Difflib.extend_down a a false (Difflib.down_fuel lo (i, i, k))
            lo lo (i, i, k) = (lo, lo, k + (i - lo))) as ->.
  { apply extend_down_self; unfold Difflib.down_fuel; simpl; lia. }
  assert (Difflib.extend_up a a false
            (Difflib.up_fuel hi (lo, lo, k + (i - lo))) hi hi
            (lo, lo, k + (i - lo)) = (lo, lo, hi - lo)) as ->.
  { apply extend_up_self; unfold Difflib.up_fuel, Difflib.size; simpl; lia. }
  unfold Difflib.down_fuel, Difflib.up_fuel, Difflib.size. simpl.
  replace (Z.to_nat (lo - lo)) with O by lia. simpl.
  by replace (Z.to_nat (hi - (lo + (hi - lo)))) with O by lia.
Qed.

End diagonal_facts.

(** ** The queue loop of [get_matching_blocks] *)

Definition region_ok (r : Z * Z * Z * Z) : Prop :=
  r.1.1.1 ≤ r.1.1.2 ∧ r.1.2 ≤ r.2.

(** The rounds a region can take. *)
Definition weight (r : Z * Z * Z * Z) : Z := 2 * (r.1.1.2 - r.1.1.1) + 1.

(** The most elements a region can contribute to the blocks. *)
Definition cap (r : Z * Z * Z * Z) : Z :=
  Z.min (r.1.1.2 - r.1.1.1) (r.2 - r.1.2).

Definition total (f : Z * Z * Z * Z → Z) (queue : list (Z * Z * Z * Z)) : Z :=
  foldr (λ r acc, f r + acc) 0 queue.

Lemma sum_sizes_app l1 l2 :
  Difflib.sum_sizes (l1 ++ l2) = Difflib.sum_sizes l1 + Difflib.sum_sizes l2.
Proof.
  unfold Difflib.sum_sizes. induction l1 as [|x l1 IH]; simpl; [done|].
  rewrite IH. lia.
Qed.

Lemma sum_sizes_snoc l x :
  Difflib.sum_sizes (l ++ [x]) = Difflib.sum_sizes l + x.2.
Proof.
  rewrite sum_sizes_app. unfold Difflib.sum_sizes at 2, Difflib.size.
  simpl. lia.
Qed.

Lemma sum_sizes_perm l1 l2 :
  l1 ≡ₚ l2 → Difflib.sum_sizes l1 = Difflib.sum_sizes l2.
Proof.
  unfold Difflib.sum_sizes.
  induction 1 as [|x l1 l2 _ IH|x y l|l1 l2 l3 _ IH1 _ IH2]; simpl; lia.
Qed.

Lemma total_cons f r queue : total f (r :: queue) = f r + total f queue.
Proof. done. Qed.

Lemma total_weight_nonneg queue :
  Forall region_ok queue → 0 ≤ total weight queue.
Proof.
  induction 1 as [|r q [? ?] _ IH]; [done|]. rewrite total_cons.
  unfold weight at 1. lia.
Qed.

Lemma total_cap_nonneg queue : Forall region_ok queue → 0 ≤ total cap queue.
Proof.
  induction 1 as [|r q [? ?] _ IH]; [done|]. rewrite total_cons.
  unfold cap at 1. lia.
Qed.

Section loop_facts.
Variables (a b : list ascii) (b2j : gmap ascii (list Z)).
Hypothesis b2j_occurrences : ∀ c js, b2j !! c = Some js → occurrences b c js.

Lemma find_in_region alo ahi blo bhi :
  region_ok (alo, ahi, blo, bhi) →
  block_ok a b alo ahi blo bhi
    (Difflib.find_longest_match a b b2j alo ahi blo bhi).
Proof. intros [? ?]. by apply find_longest_match_ok. Qed.

(** The loop ends within the rounds that the regions of the queue can
    take. *)
Lemma matching_loop_total fuel queue blocks :
  Forall region_ok queue → total weight queue ≤ Z.of_nat fuel →
  is_Some (Difflib.matching_loop a b b2j fuel queue blocks).
Proof.
  revert queue blocks. induction fuel as [|fuel IH]; intros queue blocks Hok Hw.
  - destruct queue as [|[[[alo ahi] blo] bhi] queue]; [by eexists|].
    apply Forall_cons in Hok as [[? ?] Hok%total_weight_nonneg].
    rewrite total_cons in Hw. unfold weight in Hw at 1. simpl in *. lia.
  - destruct queue as [|[[[alo ahi] blo] bhi] queue]; [by eexists|].
    apply Forall_cons in Hok as [Hr Hok]. simpl.
    pose proof (find_in_region alo ahi blo bhi Hr) as Hb.
    destruct (Difflib.find_longest_match a b b2j alo ahi blo bhi)
      as [[i j] k].
    destruct Hb as (? & ? & ? & ? & ? & _). destruct Hr as [? ?].
    rewrite total_cons in Hw. unfold weight in Hw at 1. simpl in *.
    destruct (Z.eqb_spec k 0); [apply IH; [done|lia]|].
    apply IH.
    + repeat case_match; repeat (apply Forall_cons; split); try done;
        unfold region_ok; simpl; lia.
    + repeat case_match; rewrite ?total_cons; unfold weight in *;
        simpl in *; lia.
Qed.

Definition on_diagonal (r : Z * Z * Z * Z) : Prop :=
  r.1.1.1 = r.1.2 ∧ r.1.1.2 = r.2.

Definition same_in (r : Z * Z * Z * Z) : Prop :=
  ∀ p, r.1.1.1 ≤ p < r.1.1.2 → Difflib.item a p = Difflib.item b p.

(** The blocks hold no more elements than the regions can give, and when
    they hold as many, the regions on the diagonal are equal texts. *)
Lemma matching_loop_bound fuel queue blocks res :
  Difflib.matching_loop a b b2j fuel queue blocks = Some res →
  Forall region_ok queue →
  Difflib.sum_sizes res ≤ Difflib.sum_sizes blocks + total cap queue
  ∧ (Difflib.sum_sizes res = Difflib.sum_sizes blocks + total cap queue →
     ∀ r, r ∈ queue → on_diagonal r → same_in r).
Proof.
  revert queue blocks. induction fuel as [|fuel IH]; intros queue blocks Hl Hok.
  - destruct queue as [|[[[alo ahi] blo] bhi] queue]; [|done].
    simpl in Hl. injection Hl as <-. simpl. split; [lia|].
    by intros _ r ?%elem_of_nil.
  - destruct queue as [|[[[alo ahi] blo] bhi] queue].
    { simpl in Hl. injection Hl as <-. simpl. split; [lia|].
      by intros _ r ?%elem_of_nil. }
    apply Forall_cons in Hok as [Hr Hok]. simpl in Hl.
    pose proof (find_in_region alo ahi blo bhi Hr) as Hb.
    destruct (Difflib.find_longest_match a b b2j alo ahi blo bhi)
      as [[i j] k].
    destruct Hb as (? & ? & ? & ? & ? & Hag). destruct Hr as [? ?].
    pose proof (total_cap_nonneg queue Hok).
    rewrite total_cons. unfold cap at 1 3.
    simpl in *. destruct (Z.eqb_spec k 0) as [Hk|Hk].
    + apply IH in Hl as [Hle Heq]; [|done].
      split; [lia|]. intros Hsum r [->|Hin]%elem_of_cons.
      * intros [? ?] p ?. simpl in *. lia.
      * apply Heq; [lia|done].
    + set (left := if (alo <? i) && (blo <? j)
                   then (alo, i, blo, j) :: queue else queue) in Hl.
      set (right := if (i + k <? ahi) && (j + k <? bhi)
                    then (i + k, ahi, j + k, bhi) :: left else left) in Hl.
      assert (Forall region_ok left) as Hokl.
      { unfold left. case_match; [|done]. apply Forall_cons. split; [|done].
        unfold region_ok; simpl; lia. }
      assert (Forall region_ok right) as Hokr.
      { unfold right. case_match; [|done]. apply Forall_cons. split; [|done].
        unfold region_ok; simpl; lia. }
      assert (total cap left
              = Z.min (i - alo) (j - blo) + total cap queue) as Hcl.
      { unfold left. destruct (Z.ltb_spec alo i), (Z.ltb_spec blo j);
          cbn [andb]; try (rewrite total_cons; unfold cap at 1; simpl);
          lia. }
      assert (total cap right
              = Z.min (ahi - (i + k)) (bhi - (j + k)) + total cap left) as Hcr.
      { unfold right. destruct (Z.ltb_spec (i + k) ahi),
          (Z.ltb_spec (j + k) bhi); cbn [andb];
          try (rewrite total_cons; unfold cap at 1; simpl); lia. }
      apply IH in Hl as [Hle Heq]; [|done].
      rewrite sum_sizes_snoc in Hle, Heq. simpl in Hle, Heq.
      split; [lia|]. intros Hsum.
      assert (∀ r, r ∈ left → r ∈ right) as Hlr.
      { intros r ?. unfold right. case_match; [by right|done]. }
      assert (∀ r, r ∈ queue → r ∈ left) as Hql.
      { intros r ?. unfold left. case_match; [by right|done]. }
      intros r [->|Hin]%elem_of_cons; [|apply Heq; [lia|auto]].
      intros [? ?] p Hp. simpl in *. subst blo bhi.
      assert (i = j) as <- by lia.
      destruct (decide (p < i)); [|destruct (decide (p < i + k))].
      * apply (Heq ltac:(lia) (alo, i, alo, i)); [|done|simpl; lia].
        apply Hlr. unfold left.
        destruct (Z.ltb_spec alo i); [|lia]. by left.
      * destruct (Hag (p - i)) as (c & Hc1 & Hc2); [lia|].
        replace (i + (p - i)) with p in * by lia. congruence.
      * apply (Heq ltac:(lia) (i + k, ahi, i + k, ahi)); [|done|simpl; lia].
        unfold right. destruct (Z.ltb_spec (i + k) ahi); [|lia]. by left.
Qed.

Lemma flush_sum non_adjacent m :
  Difflib.sum_sizes (Difflib.flush non_adjacent m)
  = Difflib.sum_sizes non_adjacent + Difflib.size m.
Proof.
  unfold Difflib.flush. destruct (Z.eqb_spec (Difflib.size m) 0) as [->|];
    [lia|]. by rewrite sum_sizes_snoc.
Qed.

Lemma collapse_step_sum blocks non_adjacent m :
  let st := foldl Difflib.collapse_step (non_adjacent, m) blocks in
  Difflib.sum_sizes st.1 + Difflib.size st.2
  = Difflib.sum_sizes non_adjacent + Difflib.size m
    + Difflib.sum_sizes blocks.
Proof.
  revert non_adjacent m.
  induction blocks as [|[[i2 j2] k2] blocks IH];
    intros non_adjacent [[i1 j1] k1]; simpl; [lia|].
  case_match; rewrite IH; [unfold Difflib.size; simpl; lia|].
  rewrite flush_sum. unfold Difflib.size; simpl. lia.
Qed.

(** Collapsing adjacent blocks keeps the number of matched elements. *)
Lemma collapse_sum blocks :
  Difflib.sum_sizes (Difflib.collapse blocks) = Difflib.sum_sizes blocks.
Proof.
  unfold Difflib.collapse.
  pose proof (collapse_step_sum blocks [] (0, 0, 0)) as H. cbv zeta in H.
  destruct (foldl _ _ _) as [non_adjacent m]. rewrite flush_sum.
  change (Difflib.sum_sizes []) with 0 in H.
  change (Difflib.size (0, 0, 0)) with 0 in H. simpl in H. lia.
Qed.

Lemma get_matching_blocks_total :
  is_Some (Difflib.get_matching_blocks a b b2j).
Proof.
  unfold Difflib.get_matching_blocks.
  destruct (matching_loop_total (Difflib.loop_fuel a)
              [(0, Z.of_nat (length a), 0, Z.of_nat (length b))] [])
    as [blocks ->]; [| |by eexists].
  - repeat constructor; simpl; lia.
  - unfold Difflib.loop_fuel, weight. simpl. lia.
Qed.

(** The matched elements [M] of [ratio]: at most the shorter length, and
    all of two texts of one length only when the texts are equal. *)
Lemma get_matching_blocks_sum blocks :
  Difflib.get_matching_blocks a b b2j = Some blocks →
  let la := Z.of_nat (length a) in
  let lb := Z.of_nat (length b) in
  Difflib.sum_sizes blocks ≤ Z.min la lb
  ∧ (la = lb → Difflib.sum_sizes blocks = la → a = b).
Proof.
  unfold Difflib.get_matching_blocks. intros Hg.
  destruct (Difflib.matching_loop _ _ _ _ _ _) as [found|] eqn:Hl; [|done].
  simpl in Hg. injection Hg as <-.
  apply matching_loop_bound in Hl as [Hle Heq];
    [|repeat constructor; simpl; lia].
  rewrite sum_sizes_snoc, collapse_sum.
  rewrite (sum_sizes_perm _ found) by apply merge_sort_Permutation.
  change (Difflib.sum_sizes []) with 0 in Hle, Heq.
  rewrite total_cons in Hle, Heq. change (total cap []) with 0 in Hle, Heq.
  unfold cap in Hle, Heq. simpl in Hle, Heq. simpl.
  split; [lia|]. intros Hlen Hsum.
  apply item_ext; [lia|]. intros p Hp.
  apply (Heq ltac:(lia) (0, Z.of_nat (length a), 0, Z.of_nat (length b)));
    [by left|split; simpl; lia|simpl; lia].
Qed.

End loop_facts.

(** ** The three ratios *)

Section ratio_facts.

Lemma calculate_ratio_le_one M L :
  0 ≤ L → 2 * M ≤ L → (Difflib.calculate_ratio M L <= 1)%Q.
Proof.
  intros ? ?. unfold Difflib.calculate_ratio.
  destruct (Z.eqb_spec L 0); [apply Qle_refl|].
  unfold Qle. simpl. rewrite Z2Pos.id by lia. lia.
Qed.

Lemma calculate_ratio_one M L :
  0 ≤ L → (Difflib.calculate_ratio M L == 1)%Q → L = 0 ∨ 2 * M = L.
Proof.
  intros ?. unfold Difflib.calculate_ratio.
  destruct (Z.eqb_spec L 0); [by left|].
  unfold Qeq. simpl. rewrite Z2Pos.id by lia. lia.
Qed.

Lemma calculate_ratio_self n :
  0 ≤ n → (Difflib.calculate_ratio n (n + n) == 1)%Q.
Proof.
  intros ?. unfold Difflib.calculate_ratio.
  destruct (Z.eqb_spec (n + n) 0); [reflexivity|].
  unfold Qeq. simpl. rewrite Z2Pos.id by lia. lia.
Qed.

Lemma ratio_total a b : is_Some (Difflib.ratio a b).
Proof.
  unfold Difflib.ratio.
  destruct (get_matching_blocks_total a b (Difflib.chain_b b))
    as [blocks ->]; [apply chain_b_occurrences|]. by eexists.
Qed.

Lemma ratio_le_one a b r : Difflib.ratio a b = Some r → (r <= 1)%Q.
Proof.
  unfold Difflib.ratio.
  destruct (Difflib.get_matching_blocks _ _ _) as [blocks|] eqn:Hg; [|done].
  intros [= <-].
  apply get_matching_blocks_sum in Hg as [? _]; [|apply chain_b_occurrences].
  apply calculate_ratio_le_one; lia.
Qed.

(** Only a text equal to the word scores 1. *)
Lemma ratio_one_eq a b r :
  Difflib.ratio a b = Some r → (r == 1)%Q → a = b.
Proof.
  unfold Difflib.ratio.
  destruct (Difflib.get_matching_blocks _ _ _) as [blocks|] eqn:Hg; [|done].
  intros [= <-] Hr.
  apply get_matching_blocks_sum in Hg as [? Heq]; [|apply chain_b_occurrences].
  apply calculate_ratio_one in Hr; [|lia]. destruct Hr.
  - destruct a, b; simpl in *; try lia. done.
  - apply Heq; lia.
Qed.

Lemma matching_blocks_self (a : list ascii) :
  Difflib.get_matching_blocks a a (Difflib.chain_b a)
  = Some (Difflib.flush [] (0, 0, Z.of_nat (length a))
          ++ [(Z.of_nat (length a), Z.of_nat (length a), 0)]).
Proof.
  unfold Difflib.get_matching_blocks, Difflib.loop_fuel.
  replace (2 * length a + 1)%nat with (S (2 * length a)) by lia.
  cbn [Difflib.matching_loop].
  rewrite (find_longest_match_self a (Difflib.chain_b a)
             (chain_b_occurrences a) 0 (Z.of_nat (length a))) by lia.
  rewrite Z.sub_0_r. unfold Difflib.flush, Difflib.size. cbn [snd].
  destruct (Z.eqb_spec (Z.of_nat (length a)) 0) as [Hz|Hz].
  - destruct (2 * length a)%nat; done.
  - cbn [Z.add]. rewrite !Z.ltb_irrefl. cbn [andb].
    assert (∀ n l, Difflib.matching_loop a a (Difflib.chain_b a) n [] l
                   = Some l) as -> by (by intros []).
    cbn. unfold Difflib.collapse. cbn.
    unfold Difflib.flush, Difflib.size. simpl. rewrite Z.add_0_l.
    by destruct (Z.eqb_spec (Z.of_nat (length a)) 0).
Qed.

(** A text compared with itself scores 1. *)
Lemma ratio_self a : ∃ r, Difflib.ratio a a = Some r ∧ (r == 1)%Q.
Proof.
  unfold Difflib.ratio. rewrite matching_blocks_self. simpl.
  eexists. split; [done|]. rewrite sum_sizes_snoc, flush_sum. simpl.
  change (Difflib.sum_sizes []) with 0. unfold Difflib.size. simpl.
  rewrite Z.add_0_r. apply calculate_ratio_self. lia.
Qed.

Lemma real_quick_ratio_self a : (Difflib.real_quick_ratio a a == 1)%Q.
Proof.
  unfold Difflib.real_quick_ratio. rewrite Z.min_id.
  apply calculate_ratio_self. lia.
Qed.

(** The number of times [c] occurs in [l]. *)
Fixpoint tally (c : ascii) (l : list ascii) : Z :=
  match l with
  | [] => 0
  | x :: l => (if decide (x = c) then 1 else 0) + tally c l
  end.

Lemma tally_nonneg c l : 0 ≤ tally c l.
Proof. induction l; simpl; [done|]. case_decide; lia. Qed.

Lemma fullbcount_from l (m : gmap ascii Z) c :
  default 0 (foldl (λ fullbcount elt,
               <[elt := default 0 (fullbcount !! elt) + 1]> fullbcount) m l
             !! c)
  = default 0 (m !! c) + tally c l.
Proof.
  revert m. induction l as [|x l IH]; intros m; simpl; [lia|].
  rewrite IH, lookup_insert. repeat case_decide; simplify_eq/=; lia.
Qed.

Lemma fullbcount_tally b c :
  default 0 (Difflib.fullbcount_of b !! c) = tally c b.
Proof.
  unfold Difflib.fullbcount_of. rewrite fullbcount_from, lookup_empty.
  simpl. lia.
Qed.

(** What [quick_ratio] still has available of [c]. *)
Definition available (fullbcount avail : gmap ascii Z) (c : ascii) : Z :=
  match avail !! c with
  | Some numb => numb
  | None => default 0 (fullbcount !! c)
  end.

Lemma quick_all_matched fullbcount l avail matches :
  (∀ c, tally c l ≤ available fullbcount avail c) →
  (foldl (Difflib.quick_step fullbcount) (avail, matches) l).2
  = matches + Z.of_nat (length l).
Proof.
  revert avail matches.
  induction l as [|x l IH]; intros avail matches Hav; simpl; [lia|].
  pose proof (Hav x) as Hx. simpl in Hx. rewrite decide_True in Hx by done.
  pose proof (tally_nonneg x l).
  fold (available fullbcount avail x).
  destruct (Z.ltb_spec 0 (available fullbcount avail x)); [|lia].
  rewrite IH; [lia|]. intros c. specialize (Hav c). simpl in Hav.
  unfold available at 1. rewrite lookup_insert.
  case_decide as Hc; [subst c; lia|].
  fold (available fullbcount avail c). lia.
Qed.

Lemma quick_ratio_self a : (Difflib.quick_ratio a a == 1)%Q.
Proof.
  unfold Difflib.quick_ratio.
  pose proof (quick_all_matched (Difflib.fullbcount_of a) a ∅ 0) as H.
  destruct (foldl _ _ _) as [avail matches]. simpl in H. rewrite H.
  - apply calculate_ratio_self. lia.
  - intros c. unfold available. rewrite lookup_empty, fullbcount_tally. lia.
Qed.

End ratio_facts.

(** ** [get_close_matches] *)

Section close_matches_facts.

Lemma string_compare_refl s : String.compare s s = Eq.
Proof.
  induction s as [|c s IH]; simpl; [done|].
  unfold Ascii.compare. by rewrite N.compare_refl.
Qed.

Lemma string_le_trans s1 s2 s3 :
  String.compare s1 s2 ≠ Gt → String.compare s2 s3 ≠ Gt →
  String.compare s1 s3 ≠ Gt.
Proof.
  revert s2 s3. induction s1 as [|c1 s1 IH]; intros [|c2 s2] [|c3 s3];
    simpl; try done.
  unfold Ascii.compare.
  destruct (N.compare_spec (N_of_ascii c1) (N_of_ascii c2)),
    (N.compare_spec (N_of_ascii c2) (N_of_ascii c3)),
    (N.compare_spec (N_of_ascii c1) (N_of_ascii c3));
    try done; try lia.
  apply IH.
Qed.

(** [t1 <= t2] for the tuples of [result]. *)
Definition tuple_le (t1 t2 : Q * string) : Prop :=
  (t1.1 < t2.1)%Q ∨ ((t1.1 == t2.1)%Q ∧ String.compare t1.2 t2.2 ≠ Gt).

Lemma tuple_gt_false t1 t2 :
  Difflib.tuple_gt t1 t2 = false ↔ tuple_le t1 t2.
Proof.
  unfold Difflib.tuple_gt, tuple_le.
  destruct (Qcompare t1.1 t2.1) eqn:Hc.
  - apply Qeq_alt in Hc. split.
    + intros Hs. right. split; [done|]. by destruct (String.compare _ _).
    + intros [Hlt|[_ Hs]].
      * rewrite Hc in Hlt. by apply Qlt_irrefl in Hlt.
      * by destruct (String.compare _ _).
  - apply Qlt_alt in Hc. split; [by left|done].
  - apply Qgt_alt in Hc. split; [done|]. intros [Hlt|[Heq _]].
    + exfalso. eapply Qlt_irrefl, Qlt_trans; eauto.
    + rewrite Heq in Hc. by apply Qlt_irrefl in Hc.
Qed.

Lemma tuple_gt_true t1 t2 :
  Difflib.tuple_gt t1 t2 = true → tuple_le t2 t1.
Proof.
  unfold Difflib.tuple_gt, tuple_le.
  destruct (Qcompare t1.1 t2.1) eqn:Hc; [| done |].
  - apply Qeq_alt in Hc. intros Hs. right. split; [by symmetry|].
    rewrite String.compare_antisym. by destruct (String.compare t1.2 t2.2).
  - apply Qgt_alt in Hc. by left.
Qed.

Lemma tuple_le_refl t : tuple_le t t.
Proof.
  right. split; [reflexivity|]. by rewrite string_compare_refl.
Qed.

Lemma tuple_le_trans t1 t2 t3 :
  tuple_le t1 t2 → tuple_le t2 t3 → tuple_le t1 t3.
Proof.
  intros [H12|[H12 S12]] [H23|[H23 S23]].
  - left. by eapply Qlt_trans.
  - left. by rewrite <- H23.
  - left. by rewrite H12.
  - right. split; [by rewrite H12|]. by eapply string_le_trans.
Qed.

Lemma py_max_from l t :
  let best := foldl (λ best t, if Difflib.tuple_gt t best then t else best)
                    t l in
  best ∈ t :: l ∧ ∀ t', t' ∈ t :: l → tuple_le t' best.
Proof.
  revert t. induction l as [|t1 l IH]; intros t; simpl.
  - split; [by left|]. intros t' ->%list_elem_of_singleton.
    apply tuple_le_refl.
  - destruct (Difflib.tuple_gt t1 t) eqn:Hgt.
    + destruct (IH t1) as [Hin Hmax]. split; [by right|].
      intros t' [->|Ht']%elem_of_cons; [|by apply Hmax].
      eapply tuple_le_trans; [by apply tuple_gt_true|].
      apply Hmax. by left.
    + destruct (IH t) as [Hin Hmax]. split.
      * apply elem_of_cons in Hin as [->|?]; [by left|]. by do 2 right.
      * intros t' [->|[->|Ht']%elem_of_cons]%elem_of_cons.
        -- apply Hmax. by left.
        -- eapply tuple_le_trans; [by apply tuple_gt_false|].
           apply Hmax. by left.
        -- apply Hmax. by right.
Qed.

(** [max] returns an element that none exceeds. *)
Lemma py_max_spec l :
  match Difflib.py_max l with
  | None => l = []
  | Some best => best ∈ l ∧ ∀ t, t ∈ l → tuple_le t best
  end.
Proof. destruct l as [|t l]; [done|]. apply py_max_from. Qed.

Lemma close_enough_total cutoff word x :
  is_Some (Difflib.close_enough cutoff word x).
Proof.
  unfold Difflib.close_enough. case_match; [|by eexists].
  destruct (ratio_total (list_ascii_of_string x) (list_ascii_of_string word))
    as [r ->]. by eexists.
Qed.

(** A candidate that is kept carries the text [x] and its ratio, which
    is at least the cutoff. *)
Lemma close_enough_Some cutoff word x t :
  Difflib.close_enough cutoff word x = Some (Some t) →
  t.2 = x
  ∧ Difflib.ratio (list_ascii_of_string x) (list_ascii_of_string word)
    = Some t.1
  ∧ (cutoff <= t.1)%Q.
Proof.
  unfold Difflib.close_enough. case_match; [|done].
  destruct (Difflib.ratio _ _) as [r|]; [|done]. simpl.
  destruct (Difflib.ge_cutoff cutoff r) eqn:Hge; [|done].
  intros [= <-]. by apply Qle_bool_iff in Hge.
Qed.

Lemma ge_cutoff_one cutoff r :
  (cutoff <= 1)%Q → (r == 1)%Q → Difflib.ge_cutoff cutoff r = true.
Proof. intros ? Hr. apply Qle_bool_iff. by rewrite Hr. Qed.

(** The word itself is always a candidate, with the score 1. *)
Lemma close_enough_self cutoff word :
  (cutoff <= 1)%Q →
  ∃ r, Difflib.close_enough cutoff word word = Some (Some (r, word))
       ∧ (r == 1)%Q.
Proof.
  intros Hc. unfold Difflib.close_enough.
  rewrite (ge_cutoff_one _ _ Hc (real_quick_ratio_self _)).
  rewrite (ge_cutoff_one _ _ Hc (quick_ratio_self _)).
  destruct (ratio_self (list_ascii_of_string word)) as (r & -> & Hr).
  exists r. simpl. by rewrite (ge_cutoff_one _ _ Hc Hr).
Qed.

Lemma candidates_total cutoff word possibilities :
  is_Some (Difflib.candidates cutoff word possibilities).
Proof.
  induction possibilities as [|x l [res IH]]; simpl; [by eexists|].
  destruct (close_enough_total cutoff word x) as [c ->]. simpl.
  rewrite IH. by eexists.
Qed.

Lemma candidates_elem cutoff word possibilities result :
  Difflib.candidates cutoff word possibilities = Some result →
  ∀ t, t ∈ result ↔
       ∃ x, x ∈ possibilities
            ∧ Difflib.close_enough cutoff word x = Some (Some t).
Proof.
  revert result. induction possibilities as [|x l IH]; intros result; simpl.
  - intros [= <-] t. split; [by intros ?%elem_of_nil|].
    by intros (? & ?%elem_of_nil & _).
  - destruct (Difflib.close_enough cutoff word x) as [c|] eqn:Hc; [|done].
    destruct (Difflib.candidates cutoff word l) as [res|]; [|done].
    simpl. intros [= <-] t. specialize (IH res eq_refl t).
    destruct c as [tx|].
    + rewrite elem_of_cons, IH. split.
      * intros [->|(y & ? & ?)]; [exists x|exists y];
          (split; [|done]); [by left|by right].
      * intros (y & [->|?]%elem_of_cons & Hy); [left; congruence|].
        right. by exists y.
    + rewrite IH. split.
      * intros (y & ? & ?). exists y. split; [by right|done].
      * intros (y & [->|?]%elem_of_cons & Hy); [congruence|]. by exists y.
Qed.

Lemma list_ascii_of_string_inj x y :
  list_ascii_of_string x = list_ascii_of_string y → x = y.
Proof.
  intros H. rewrite <- (string_of_list_ascii_of_string x), H.
  apply string_of_list_ascii_of_string.
Qed.

(** What [get_close_matches(word, possibilities, n=1, cutoff)] returns:
    nothing when no text reaches the cutoff, and otherwise one text
    whose pair of score and text no other candidate exceeds. *)
Lemma get_close_matches_spec word possibilities cutoff :
  ∃ res, Difflib.get_close_matches word possibilities cutoff = Some res ∧
    ((res = [] ∧ ∀ x, x ∈ possibilities →
                  Difflib.close_enough cutoff word x = Some None)
     ∨ ∃ best, res = [best.2] ∧ best.2 ∈ possibilities
         ∧ Difflib.close_enough cutoff word best.2 = Some (Some best)
         ∧ ∀ x t, x ∈ possibilities →
             Difflib.close_enough cutoff word x = Some (Some t) →
             tuple_le t best).
Proof.
  unfold Difflib.get_close_matches, Difflib.nlargest1.
  destruct (candidates_total cutoff word possibilities) as [result Hres].
  rewrite Hres. simpl. pose proof (candidates_elem _ _ _ _ Hres) as Hel.
  pose proof (py_max_spec result) as Hmax.
  destruct (Difflib.py_max result) as [best|].
  - eexists. split; [done|]. right. exists best.
    destruct Hmax as [Hin Hmax]. apply Hel in Hin as (x & Hx & Hc).
    pose proof (close_enough_Some _ _ _ _ Hc) as (<- & _ & _).
    repeat split; [done..|]. intros y t Hy Ht. apply Hmax, Hel. eauto.
  - subst result. eexists. split; [done|]. left. split; [done|].
    intros x Hx. destruct (close_enough_total cutoff word x) as [[t|] Hc];
      [|done].
    exfalso. eapply elem_of_nil, Hel. eauto.
Qed.

(** A text of [possibilities] equal to the word is the one returned. *)
Lemma get_close_matches_exact word possibilities cutoff :
  (cutoff <= 1)%Q → word ∈ possibilities →
  Difflib.get_close_matches word possibilities cutoff = Some [word].
Proof.
  intros Hc Hin.
  destruct (get_close_matches_spec word possibilities cutoff)
    as (res & -> & [[_ Hnone]|(best & -> & _ & Hbest & Hmax)]).
  - destruct (close_enough_self cutoff word Hc) as (r & Hr & _).
    rewrite (Hnone word Hin) in Hr. done.
  - destruct (close_enough_self cutoff word Hc) as (r & Hr & Hone).
    pose proof (Hmax word _ Hin Hr) as Hle.
    apply close_enough_Some in Hbest as (_ & Hratio & _).
    pose proof (ratio_le_one _ _ _ Hratio) as Hle1.
    assert (best.1 == 1)%Q as Hb1.
    { destruct Hle as [Hlt|[Heq _]]; simpl in *.
      - rewrite Hone in Hlt. exfalso.
        eapply Qlt_irrefl, Qlt_le_trans; eauto.
      - by rewrite <- Heq. }
    apply (ratio_one_eq _ _ _ Hratio), list_ascii_of_string_inj in Hb1.
    by rewrite Hb1.
Qed.

End close_matches_facts.

(** ** The quick ratios are upper bounds of the ratio *)

Section common_facts.

(** All 256 characters. *)
Definition all_chars : list ascii := ascii_of_nat <$> seq 0 256.

Lemma all_chars_elem c : c ∈ all_chars.
Proof.
  unfold all_chars. apply list_elem_of_fmap. exists (nat_of_ascii c).
  split; [by rewrite ascii_nat_embedding|].
  apply elem_of_seq. pose proof (nat_ascii_bounded c). lia.
Qed.

Lemma all_chars_NoDup : NoDup all_chars.
Proof.
  unfold all_chars. apply NoDup_fmap_2_strong; [|apply NoDup_seq].
  intros n m Hn%elem_of_seq Hm%elem_of_seq Heq.
  rewrite <- (nat_ascii_embedding n), <- (nat_ascii_embedding m) by lia.
  by rewrite Heq.
Qed.

(** The sum of [f] over the characters of [l]. *)
Definition sum_over (l : list ascii) (f : ascii → Z) : Z :=
  foldr (λ c acc, f c + acc) 0 l.

Definition sum_chars : (ascii → Z) → Z := sum_over all_chars.

Lemma sum_over_ext l f g : (∀ c, f c = g c) → sum_over l f = sum_over l g.
Proof. intros H. induction l as [|c l IH]; simpl; [done|]. by rewrite H, IH. Qed.

Lemma sum_over_le l f g : (∀ c, f c ≤ g c) → sum_over l f ≤ sum_over l g.
Proof.
  intros H. induction l as [|c l IH]; simpl; [done|]. specialize (H c). lia.
Qed.

Lemma sum_over_add l f g :
  sum_over l (λ c, f c + g c) = sum_over l f + sum_over l g.
Proof. induction l as [|c l IH]; simpl; [done|]. rewrite IH. lia. Qed.

Lemma sum_over_only l x v :
  NoDup l →
  sum_over l (λ c, if decide (x = c) then v else 0)
  = if decide (x ∈ l) then v else 0.
Proof.
  induction 1 as [|c l Hc _ IH]; simpl.
  - destruct (decide (x ∈ [])) as [H%elem_of_nil|]; done.
  - rewrite IH.
    destruct (decide (x = c)) as [Heq|Hne], (decide (x ∈ l)) as [Hl|Hl],
      (decide (x ∈ c :: l)) as [Hcl|Hcl];
      first [lia | exfalso; set_solver].
Qed.

Lemma sum_chars_only x v :
  sum_chars (λ c, if decide (x = c) then v else 0) = v.
Proof.
  unfold sum_chars. rewrite sum_over_only by apply all_chars_NoDup.
  by rewrite decide_True by apply all_chars_elem.
Qed.

Lemma tally_app c l1 l2 : tally c (l1 ++ l2) = tally c l1 + tally c l2.
Proof. induction l1 as [|x l1 IH]; simpl; [done|]. rewrite IH. lia. Qed.

Lemma sum_chars_tally l : sum_chars (λ c, tally c l) = Z.of_nat (length l).
Proof.
  induction l as [|x l IH]; simpl.
  - unfold sum_chars. induction all_chars as [|c cs IHc]; simpl; [done|].
    by rewrite IHc.
  - unfold sum_chars in *. rewrite sum_over_add, IH.
    fold (sum_chars (λ c, if decide (x = c) then 1 else 0)).
    rewrite sum_chars_only. lia.
Qed.

(** The number of elements two texts have in common, as multisets. *)
Definition common (x y : list ascii) : Z :=
  sum_chars (λ c, Z.min (tally c x) (tally c y)).

Lemma common_nonneg x y : 0 ≤ common x y.
Proof.
  unfold common, sum_chars. transitivity (sum_over all_chars (λ _, 0)).
  - induction all_chars as [|c cs IH]; simpl; lia.
  - apply sum_over_le. intros c.
    pose proof (tally_nonneg c x). pose proof (tally_nonneg c y). lia.
Qed.

Lemma common_app x1 x2 y1 y2 :
  common x1 y1 + common x2 y2 ≤ common (x1 ++ x2) (y1 ++ y2).
Proof.
  unfold common, sum_chars. rewrite <- sum_over_add. apply sum_over_le.
  intros c. rewrite !tally_app. lia.
Qed.

Lemma common_self x : common x x = Z.of_nat (length x).
Proof.
  unfold common. rewrite <- sum_chars_tally. apply sum_over_ext.
  intros c. lia.
Qed.

(** [quick_ratio] counts the common elements. *)
Lemma quick_from fullbcount l avail matches (u : ascii → Z) :
  (∀ c, available fullbcount avail c
        = default 0 (fullbcount !! c) - u c) →
  (foldl (Difflib.quick_step fullbcount) (avail, matches) l).2
  = matches
    + sum_chars (λ c, Z.min (u c + tally c l) (default 0 (fullbcount !! c)))
    - sum_chars (λ c, Z.min (u c) (default 0 (fullbcount !! c))).
Proof.
  revert avail matches u.
  induction l as [|x l IH]; intros avail matches u Hav.
  - simpl. unfold sum_chars.
    rewrite (sum_over_ext _ _ (λ c, Z.min (u c) (default 0 (fullbcount !! c))));
      [lia|]. intros c. by rewrite Z.add_0_r.
  - cbn [foldl Difflib.quick_step]. fold (available fullbcount avail x).
    set (numb := available fullbcount avail x).
    rewrite (IH _ _ (λ c, u c + if decide (x = c) then 1 else 0)).
    + set (B := λ c, default 0 (fullbcount !! c)).
      assert (numb = B x - u x) as Hn by apply Hav.
      unfold sum_chars.
      rewrite (sum_over_ext _
                 (λ c, Z.min (u c + (if decide (x = c) then 1 else 0)
                              + tally c l) (B c))
                 (λ c, Z.min (u c + tally c (x :: l)) (B c)))
        by (intros c; simpl; f_equal; lia).
      rewrite (sum_over_ext _
                 (λ c, Z.min (u c + (if decide (x = c) then 1 else 0)) (B c))
                 (λ c, Z.min (u c) (B c)
                       + (if decide (x = c)
                          then (if 0 <? numb then 1 else 0) else 0))).
      * rewrite sum_over_add.
        fold (sum_chars (λ c, if decide (x = c)
                              then (if 0 <? numb then 1 else 0) else 0)).
        rewrite sum_chars_only. subst B. cbv beta.
        destruct (0 <? numb); lia.
      * intros c. destruct (decide (x = c)) as [<-|]; [|lia].
        destruct (Z.ltb_spec 0 numb); lia.
    + intros c. unfold available at 1. rewrite lookup_insert.
      destruct (decide (x = c)) as [<-|Hne].
      * cbn. fold numb. specialize (Hav x).
        fold numb in Hav. lia.
      * cbn. fold (available fullbcount avail c).
        rewrite Hav. lia.
Qed.

Lemma quick_matches a b :
  (foldl (Difflib.quick_step (Difflib.fullbcount_of b)) (∅, 0) a).2
  = common a b.
Proof.
  rewrite (quick_from _ a ∅ 0 (λ _, 0)).
  - unfold common, sum_chars.
    rewrite (sum_over_ext _
               (λ c, Z.min 0 (default 0 (Difflib.fullbcount_of b !! c)))
               (λ _, 0)).
    + rewrite (sum_over_ext _ _ (λ c, Z.min (tally c a) (tally c b)))
        by (intros c; by rewrite fullbcount_tally).
      assert (sum_over all_chars (λ _, 0) = 0) as ->; [|lia].
      induction all_chars as [|c cs IH]; simpl; lia.
    + intros c. rewrite fullbcount_tally. pose proof (tally_nonneg c b). lia.
  - intros c. unfold available. rewrite lookup_empty. lia.
Qed.

End common_facts.

(** The elements of [x] from [lo] up to [hi]: the slice [x[lo:hi]]. *)
Definition seg (x : list ascii) (lo hi : Z) : list ascii :=
  take (Z.to_nat (hi - lo)) (drop (Z.to_nat lo) x).

Definition region_pos (r : Z * Z * Z * Z) : Prop :=
  0 ≤ r.1.1.1 ≤ r.1.1.2 ∧ 0 ≤ r.1.2 ≤ r.2.

Section segment_facts.
Implicit Types (x : list ascii) (lo mid hi : Z).

Lemma seg_split x lo mid hi :
  0 ≤ lo ≤ mid → mid ≤ hi → seg x lo hi = seg x lo mid ++ seg x mid hi.
Proof.
  intros ? ?. unfold seg.
  replace (Z.to_nat (hi - lo))
    with (Z.to_nat (mid - lo) + Z.to_nat (hi - mid))%nat by lia.
  rewrite <- take_take_drop, drop_drop. do 3 f_equal. lia.
Qed.

Lemma seg_full x : seg x 0 (Z.of_nat (length x)) = x.
Proof.
  unfold seg. rewrite Z.sub_0_r, Nat2Z.id. simpl. by rewrite take_ge.
Qed.

Lemma seg_lookup x lo hi (n : nat) :
  0 ≤ lo → Z.of_nat n < hi - lo →
  seg x lo hi !! n = Difflib.item x (lo + Z.of_nat n).
Proof.
  intros ? ?. unfold seg, Difflib.item.
  rewrite lookup_take_lt by lia. rewrite lookup_drop.
  destruct (Z.ltb_spec (lo + Z.of_nat n) 0); [lia|]. f_equal. lia.
Qed.

Lemma seg_agree a b i j k :
  0 ≤ i → 0 ≤ j → 0 ≤ k → agree a b i j k →
  seg a i (i + k) = seg b j (j + k)
  ∧ Z.of_nat (length (seg a i (i + k))) = k.
Proof.
  intros ? ? ? Hag. split.
  - apply list_eq. intros n.
    destruct (decide (Z.of_nat n < k)) as [Hn|Hn].
    + rewrite !seg_lookup by lia.
      destruct (Hag (Z.of_nat n)) as (c & -> & ->); [lia|done].
    + unfold seg. rewrite !lookup_take_ge; [done|lia..].
  - unfold seg. rewrite length_take, length_drop.
    destruct (decide (k = 0)) as [->|?]; [lia|].
    destruct (Hag (k - 1)) as (c & Hc%item_lt & _); [lia|]. lia.
Qed.

(** A block that pairs equal elements leaves the common elements of the
    regions to its left and to its right. *)
Lemma common_block a b alo ahi blo bhi i j k :
  0 ≤ alo → 0 ≤ blo →
  block_ok a b alo ahi blo bhi (i, j, k) →
  common (seg a alo i) (seg b blo j) + k
  + common (seg a (i + k) ahi) (seg b (j + k) bhi)
  ≤ common (seg a alo ahi) (seg b blo bhi).
Proof.
  intros ? ? (? & ? & ? & ? & ? & Hag). simpl in *.
  apply seg_agree in Hag as [Heq Hlen]; [|lia..].
  rewrite (seg_split a alo i ahi), (seg_split a i (i + k) ahi) by lia.
  rewrite (seg_split b blo j bhi), (seg_split b j (j + k) bhi) by lia.
  etrans; [|apply common_app]. etrans; [|apply Z.add_le_mono_l, common_app].
  rewrite <- Heq, common_self. lia.
Qed.
End segment_facts.

Section loop_common_facts.
Variables (a b : list ascii) (b2j : gmap ascii (list Z)).
Hypothesis b2j_occurrences : ∀ c js, b2j !! c = Some js → occurrences b c js.

(** The elements that the two sides of a region have in common. *)
Definition shared (r : Z * Z * Z * Z) : Z :=
  common (seg a r.1.1.1 r.1.1.2) (seg b r.1.2 r.2).

Lemma total_shared_nonneg queue : 0 ≤ total shared queue.
Proof.
  induction queue as [|r q IH]; [done|]. rewrite total_cons.
  pose proof (common_nonneg (seg a r.1.1.1 r.1.1.2) (seg b r.1.2 r.2)).
  unfold shared at 1. lia.
Qed.

(** The blocks hold no more elements than the regions have in common. *)
Lemma matching_loop_common fuel queue blocks res :
  Difflib.matching_loop a b b2j fuel queue blocks = Some res →
  Forall region_pos queue →
  Difflib.sum_sizes res ≤ Difflib.sum_sizes blocks + total shared queue.
Proof.
  revert queue blocks. induction fuel as [|fuel IH]; intros queue blocks Hl Hok.
  - destruct queue as [|[[[alo ahi] blo] bhi] queue]; [|done].
    simpl in Hl. injection Hl as <-. simpl. lia.
  - destruct queue as [|[[[alo ahi] blo] bhi] queue].
    { simpl in Hl. injection Hl as <-. simpl. lia. }
    apply Forall_cons in Hok as [Hr Hok]. simpl in Hl.
    destruct Hr as [? ?]. cbn [fst snd] in *.
    pose proof (find_in_region a b b2j b2j_occurrences alo ahi blo bhi) as Hb.
    destruct (Difflib.find_longest_match a b b2j alo ahi blo bhi)
      as [[i j] k].
    pose proof (common_block a b alo ahi blo bhi i j k) as Hcb.
    destruct Hb as (? & ? & ? & ? & ? & Hag); [split; simpl; lia|].
    specialize (Hcb ltac:(lia) ltac:(lia)
                  ltac:(unfold block_ok; simpl; repeat split; done)).
    pose proof (total_shared_nonneg queue).
    rewrite total_cons. unfold shared at 1.
    cbn [fst snd] in *. destruct (Z.eqb_spec k 0) as [Hk|Hk].
    + apply IH in Hl; [|done].
      pose proof (common_nonneg (seg a alo ahi) (seg b blo bhi)). lia.
    + set (left := if (alo <? i) && (blo <? j)
                   then (alo, i, blo, j) :: queue else queue) in Hl.
      set (right := if (i + k <? ahi) && (j + k <? bhi)
                    then (i + k, ahi, j + k, bhi) :: left else left) in Hl.
      assert (Forall region_pos left) as Hokl.
      { unfold left. case_match; [|done]. apply Forall_cons. split; [|done].
        unfold region_pos; simpl; lia. }
      assert (Forall region_pos right) as Hokr.
      { unfold right. case_match; [|done]. apply Forall_cons. split; [|done].
        unfold region_pos; simpl; lia. }
      pose proof (common_nonneg (seg a alo i) (seg b blo j)).
      pose proof (common_nonneg (seg a (i + k) ahi) (seg b (j + k) bhi)).
      assert (total shared left
              ≤ common (seg a alo i) (seg b blo j) + total shared queue)
        as Hcl.
      { unfold left. case_match; [|lia].
        rewrite total_cons. unfold shared at 1. simpl. lia. }
      assert (total shared right
              ≤ common (seg a (i + k) ahi) (seg b (j + k) bhi)
                + total shared left) as Hcr.
      { unfold right. case_match; [|lia].
        rewrite total_cons. unfold shared at 1. simpl. lia. }
      apply IH in Hl; [|done].
      rewrite sum_sizes_snoc in Hl. simpl in Hl. lia.
Qed.

(** The matched elements [M] of [ratio] are common elements. *)
Lemma get_matching_blocks_common blocks :
  Difflib.get_matching_blocks a b b2j = Some blocks →
  Difflib.sum_sizes blocks ≤ common a b.
Proof.
  unfold Difflib.get_matching_blocks. intros Hg.
  destruct (Difflib.matching_loop _ _ _ _ _ _) as [found|] eqn:Hl; [|done].
  simpl in Hg. injection Hg as <-.
  apply matching_loop_common in Hl;
    [|repeat constructor; simpl; lia].
  rewrite sum_sizes_snoc, collapse_sum.
  rewrite (sum_sizes_perm _ found) by apply merge_sort_Permutation.
  change (Difflib.sum_sizes []) with 0 in Hl.
  rewrite total_cons in Hl. change (total shared []) with 0 in Hl.
  unfold shared in Hl. simpl in Hl. rewrite !seg_full in Hl. simpl. lia.
Qed.

End loop_common_facts.

Section upper_bound_facts.

Lemma calculate_ratio_mono M M' L :
  0 ≤ L → M ≤ M' →
  (Difflib.calculate_ratio M L <= Difflib.calculate_ratio M' L)%Q.
Proof.
  intros ? ?. unfold Difflib.calculate_ratio.
  destruct (Z.eqb_spec L 0); [apply Qle_refl|].
  unfold Qle. simpl. nia.
Qed.

Lemma quick_ratio_common a b :
  Difflib.quick_ratio a b
  = Difflib.calculate_ratio (common a b)
      (Z.of_nat (length a) + Z.of_nat (length b)).
Proof.
  unfold Difflib.quick_ratio. rewrite <- quick_matches.
  by destruct (foldl _ _ _).
Qed.

(** [quick_ratio] is an upper bound of [ratio]. *)
Lemma ratio_le_quick_ratio a b r :
  Difflib.ratio a b = Some r → (r <= Difflib.quick_ratio a b)%Q.
Proof.
  unfold Difflib.ratio.
  destruct (Difflib.get_matching_blocks _ _ _) as [blocks|] eqn:Hg; [|done].
  intros [= <-]. rewrite quick_ratio_common.
  apply calculate_ratio_mono; [lia|].
  eapply get_matching_blocks_common; [apply chain_b_occurrences|done].
Qed.

(** [real_quick_ratio] is an upper bound of [ratio]. *)
Lemma ratio_le_real_quick_ratio a b r :
  Difflib.ratio a b = Some r → (r <= Difflib.real_quick_ratio a b)%Q.
Proof.
  unfold Difflib.ratio.
  destruct (Difflib.get_matching_blocks _ _ _) as [blocks|] eqn:Hg; [|done].
  intros [= <-]. unfold Difflib.real_quick_ratio.
  apply calculate_ratio_mono; [lia|].
  by apply get_matching_blocks_sum in Hg as [? _];
    [|apply chain_b_occurrences].
Qed.

Lemma ge_cutoff_le cutoff r r' :
  (r <= r')%Q → Difflib.ge_cutoff cutoff r = true →
  Difflib.ge_cutoff cutoff r' = true.
Proof.
  unfold Difflib.ge_cutoff. rewrite !Qle_bool_iff. intros ? ?.
  by eapply Qle_trans.
Qed.

(** The two quick tests never discard a text whose ratio reaches the
    cutoff: a text is kept exactly when its ratio does. *)
Lemma close_enough_ratio cutoff word x r :
  Difflib.ratio (list_ascii_of_string x) (list_ascii_of_string word) = Some r →
  Difflib.close_enough cutoff word x
  = Some (if Difflib.ge_cutoff cutoff r then Some (r, x) else None).
Proof.
  intros Hr. unfold Difflib.close_enough. rewrite Hr. simpl.
  destruct (Difflib.ge_cutoff cutoff r) eqn:Hge.
  - rewrite (ge_cutoff_le _ _ _ (ratio_le_real_quick_ratio _ _ _ Hr) Hge).
    by rewrite (ge_cutoff_le _ _ _ (ratio_le_quick_ratio _ _ _ Hr) Hge).
  - by case_match.
Qed.

Lemma ge_cutoff_false cutoff r :
  Difflib.ge_cutoff cutoff r = false → (r < cutoff)%Q.
Proof.
  unfold Difflib.ge_cutoff. intros Hge. apply Qnot_le_lt.
  intros Hle%Qle_bool_iff. congruence.
Qed.

End upper_bound_facts.

(** * Properties of the chatbot *)

(** ** Running the methods *)

Section monad_facts.
Context {A B : Type}.

Lemma bind_returns (m : M A) (f : A → M B) st x st' :
  m st = Returns x st' → (m ≫= f) st = f x st'.
Proof. intros H. unfold mbind, M_bind. by rewrite H. Qed.

Lemma fmap_returns (g : A → B) (m : M A) st x st' :
  m st = Returns x st' → (g <$> m) st = Returns (g x) st'.
Proof. intros H. unfold fmap, M_fmap. by rewrite H. Qed.

End monad_facts.

Lemma get_data_returns st d : self_data st = Some d → get_data st = Returns d st.
Proof. intros H. unfold get_data. by rewrite H. Qed.

(** [m] returns and leaves the object, the file and the terminal as they
    are, whenever [self.data] is set. *)
Definition reads {A} (m : M A) : Prop :=
  ∀ st d, self_data st = Some d → ∃ r, m st = Returns r st.

Lemma reads_ret {A} (x : A) : reads (mret x).
Proof. intros st d _. by exists x. Qed.

Lemma reads_bind {A B} (m : M A) (f : A → M B) :
  reads m → (∀ x, reads (f x)) → reads (m ≫= f).
Proof.
  intros Hm Hf st d Hd. destruct (Hm st d Hd) as [x Hx].
  rewrite (bind_returns _ _ _ _ _ Hx). by eapply Hf.
Qed.

Lemma reads_fmap {A B} (g : A → B) (m : M A) : reads m → reads (g <$> m).
Proof.
  intros Hm st d Hd. destruct (Hm st d Hd) as [x Hx].
  rewrite (fmap_returns _ _ _ _ _ Hx). by eexists.
Qed.

Lemma reads_get_data : reads get_data.
Proof. intros st d Hd. exists d. by apply get_data_returns. Qed.

Lemma reads_finished {A} (r : option A) : is_Some r → reads (finished r).
Proof. intros [x ->] st d _. by exists x. Qed.

Create HintDb reads.
#[local] Hint Resolve reads_ret reads_bind reads_fmap reads_get_data : reads.

Lemma reads_get_menu_by_category category : reads (get_menu_by_category category).
Proof.
  unfold get_menu_by_category. apply reads_bind; [auto with reads|].
  intros d. repeat case_match; auto with reads.
Qed.

Lemma reads_check_delivery_area area : reads (check_delivery_area area).
Proof.
  unfold check_delivery_area. apply reads_bind; [auto with reads|].
  intros d. case_match; auto with reads.
Qed.

Lemma reads_get_active_promotions : reads get_active_promotions.
Proof.
  unfold get_active_promotions. apply reads_bind; [auto with reads|].
  intros d. case_match; auto with reads.
Qed.

Lemma reads_get_popular_items : reads get_popular_items.
Proof.
  unfold get_popular_items. apply reads_bind; [auto with reads|].
  intros d. case_match; auto with reads.
Qed.

Lemma get_close_matches_total word possibilities c :
  is_Some (Difflib.get_close_matches word possibilities c).
Proof.
  destruct (get_close_matches_spec word possibilities c) as (res & -> & _).
  by eexists.
Qed.

Lemma reads_check_knowledge_base u : reads (check_knowledge_base u).
Proof.
  unfold check_knowledge_base. apply reads_bind; [auto with reads|].
  intros d. apply reads_bind.
  - apply reads_finished, get_close_matches_total.
  - intros [|best rest]; [auto with reads|].
    apply reads_bind; [auto with reads|]. intros d'.
    case_match; auto with reads.
Qed.

#[local] Hint Resolve reads_get_menu_by_category reads_check_delivery_area
  reads_get_active_promotions reads_get_popular_items
  reads_check_knowledge_base : reads.

Lemma reads_resolve rule u : rule ∈ intent_rules → reads (resolve rule u).
Proof.
  unfold intent_rules. rewrite !elem_of_cons, elem_of_nil.
  intros [->|[->|[->|[->|[->|[->|[->|[->|[]]]]]]]]]; simpl;
    try case_match; auto 6 with reads.
Qed.

Lemma reads_router u : reads (router intent_rules u).
Proof.
  unfold router.
  destruct (find _ intent_rules) as [rule|] eqn:Hf; [|auto with reads].
  apply reads_resolve. by apply find_some in Hf as [?%list_elem_of_In _].
Qed.

(** ** The chain of conditionals is the ordered rule list *)

Lemma existsb_find {A} (f : A → bool) l :
  existsb f l = true → is_Some (find f l).
Proof.
  induction l as [|x l IH]; simpl; [done|].
  destruct (f x); [by eexists|done].
Qed.

Lemma existsb_false_find {A} (f : A → bool) l :
  existsb f l = false → find f l = None.
Proof.
  induction l as [|x l IH]; simpl; [done|]. by destruct (f x).
Qed.

Lemma handle_query_router s st :
  handle_query s st = router intent_rules (lower s) st.
Proof.
  unfold handle_query, router, intent_rules. cbn [find predicate pizza_rule
    sides_rule drinks_rule delivery_rule promotions_rule popular_rule
    hours_rule phone_rule].
  do 3 (case_match; [done|]).
  destruct (contains "deliver" (lower s)); cbn [andb].
  - unfold any_in at 1 3. destruct (existsb _ areas) eqn:Hany.
    + destruct (existsb_find _ _ Hany) as [area Harea].
      cbn [resolve delivery_rule]. by rewrite Harea.
    + repeat (case_match; try done).
  - repeat (case_match; try done).
Qed.

Lemma find_first {A} (f : A → bool) (l : list A) i x :
  l !! i = Some x → f x = true →
  (∀ j y, (j < i)%nat → l !! j = Some y → f y = false) →
  find f l = Some x.
Proof.
  revert i. induction l as [|z l IH]; intros [|i] Hi Hx Hlt; simpl in *;
    try done.
  - injection Hi as ->. by rewrite Hx.
  - rewrite (Hlt 0%nat z) by (done || lia). apply (IH i); [done..|].
    intros j y ? ?. apply (Hlt (S j)); [lia|done].
Qed.

Lemma lower_char_idemp c : lower_char (lower_char c) = lower_char c.
Proof. destruct c as [[] [] [] [] [] [] [] []]; reflexivity. Qed.

Lemma lower_idemp s : lower (lower s) = lower s.
Proof.
  unfold lower. induction s as [|c s IH]; simpl; [done|].
  by rewrite lower_char_idemp, IH.
Qed.

(** The object right after [__init__] has loaded the store [d]. *)
Definition loaded (d : Data) : State :=
  {| disk := Json d; self_data := Some d; stdin := []; stdout := [] |}.

Definition qa (q a : string) : QA :=
  {| question := q; answer := a; category := "general"; added_date := "" |}.

(** * The claims *)

(** ** C3: a delivery question without a known area *)

(** C3.  When the lowercased input contains "deliver" but none of the
    area names klcc, pj, subang and petaling, the delivery rule does not
    fire: [handle_query] answers as the remaining rules, tried in their
    order, and then the knowledge base do, and [check_delivery_area] is
    not on that path. *)
Theorem delivery_needs_known_area s st :
  contains "deliver" (lower s) = true →
  any_in areas (lower s) = false →
  predicate delivery_rule (lower s) = false
  ∧ handle_query s st
    = router [ pizza_rule; sides_rule; drinks_rule; promotions_rule;
               popular_rule; hours_rule; phone_rule ] (lower s) st.
Proof.
  intros _ Hany. assert (predicate delivery_rule (lower s) = false) as Hp.
  { cbn [predicate delivery_rule]. rewrite Hany. apply andb_false_r. }
  split; [done|]. rewrite handle_query_router. unfold router, intent_rules.
  cbn [find]. by rewrite Hp.
Qed.

Lemma delivery_needs_known_area_witness :
  handle_query "Do you deliver to Ampang?" (loaded default_data)
  = router [ pizza_rule; sides_rule; drinks_rule; promotions_rule;
             popular_rule; hours_rule; phone_rule ]
      (lower "Do you deliver to Ampang?") (loaded default_data).
Proof.
  apply (delivery_needs_known_area "Do you deliver to Ampang?"
           (loaded default_data)); reflexivity.
Defined.

(** ** C4: normalization of the raw input *)

(** C4, as the claim states it, fails: [handle_query] lowercases its
    input and does not trim it.  With the question "hi" in the store, the
    input "hi" followed by three spaces scores 4/7 and finds nothing,
    while its trimmed form finds the answer. *)
Lemma handle_query_trim_counterexample :
  let st := loaded (with_questions default_data [qa "hi" "hello there"]) in
  handle_query "hi   " st = Returns None st
  ∧ handle_query (strip (lower "hi   ")) st = Returns (Some "hello there") st.
Proof. split; vm_compute; reflexivity. Qed.

(** C4, amended.  [handle_query] returns on a raw input what it returns
    on the lowercased input: its first step lowercases, and nothing
    more. *)
Theorem handle_query_lowercases s st :
  handle_query s st = handle_query (lower s) st.
Proof. by rewrite !handle_query_router, lower_idemp. Qed.

(** ** C5: starting without a data file *)

(** C5.  Without a data file [load_data] goes to [create_default_data],
    which calls [save_data] before [__init__] has assigned [self.data]:
    [save_data] has opened (and so created, empty) the file when reading
    the attribute raises AttributeError, and no chatbot is constructed. *)
Theorem init_without_file_raises lines out :
  init {| disk := Absent; self_data := None; stdin := lines; stdout := out |}
  = Raises AttributeError
      {| disk := Blank; self_data := None; stdin := lines;
         stdout := out ++ ["Creating new data file..."] |}.
Proof. reflexivity. Qed.

(** ** C6: the first matching rule wins *)

(** C6.  When the predicate of a rule holds on the lowercased input and
    the predicates of all rules before it in the rule order fail,
    [handle_query] is that rule's resolver, whatever the later rules
    would match. *)
Theorem first_matching_rule_wins s st i rule :
  intent_rules !! i = Some rule →
  predicate rule (lower s) = true →
  (∀ j rule', (j < i)%nat → intent_rules !! j = Some rule' →
              predicate rule' (lower s) = false) →
  handle_query s st = resolve rule (lower s) st.
Proof.
  intros Hi Hp Hlt. rewrite handle_query_router. unfold router.
  by rewrite (find_first _ _ i rule Hi Hp Hlt).
Qed.

Lemma first_matching_rule_wins_witness :
  predicate drinks_rule (lower "Any drink deals?") = true
  ∧ predicate promotions_rule (lower "Any drink deals?") = true
  ∧ handle_query "Any drink deals?" (loaded default_data)
    = Returns (Some "No drinks available at the moment.")
        (loaded default_data).
Proof.
  split; [reflexivity|]. split; [reflexivity|].
  rewrite (first_matching_rule_wins "Any drink deals?" (loaded default_data)
             2 drinks_rule).
  - reflexivity.
  - reflexivity.
  - reflexivity.
  - intros [|[|j]] rule' Hj Hr; [injection Hr as <-; reflexivity..|lia].
Defined.

(** ** The knowledge base *)

Lemma cutoff_le_one : (cutoff <= 1)%Q.
Proof. unfold cutoff, Qle. simpl. lia. Qed.

(** The fallback of [handle_query] once [get_close_matches] has found
    [best]: the answer of the first entry with that question. *)
Lemma check_knowledge_base_found u st d best rest :
  self_data st = Some d →
  Difflib.get_close_matches u (question <$> questions d) cutoff
  = Some (best :: rest) →
  check_knowledge_base u st
  = Returns (answer <$> find (λ q, String.eqb (question q) best) (questions d))
      st.
Proof.
  intros Hd Hg. unfold check_knowledge_base.
  rewrite (bind_returns _ _ _ _ _ (get_data_returns _ _ Hd)). rewrite Hg.
  unfold finished at 1. unfold mbind at 1, M_bind at 1.
  rewrite (bind_returns _ _ _ _ _ (get_data_returns _ _ Hd)).
  by destruct (find _ _).
Qed.

Lemma learn_new_response_returns now q a st d :
  self_data st = Some d →
  let new_qa := {| question := lower q; answer := a; category := "general";
                   added_date := now |} in
  let d' := with_questions d (questions d ++ [new_qa]) in
  learn_new_response now q a st
  = Returns () {| disk := Json d'; self_data := Some d';
                  stdin := stdin st; stdout := stdout st |}.
Proof.
  intros Hd. destruct st as [f o i out]. simpl in Hd. subst o. reflexivity.
Qed.

Lemma find_last {A} (f : A → bool) l x :
  Forall (λ y, f y = false) l → f x = true → find f (l ++ [x]) = Some x.
Proof.
  induction 1 as [|y l Hy _ IH]; intros Hx; simpl.
  - by rewrite Hx.
  - rewrite Hy. by apply IH.
Qed.

(** ** C1: learning, then asking again *)

(** C1, as the claim states it, fails in two ways.  A question that an
    intent rule matches is answered by that rule, after learning as
    before; and when the store already holds the question with another
    answer, the older entry answers. *)
Lemma learn_then_handle_counterexample :
  (∃ st, (learn_new_response "now" "what pizza" "thin crust";;
          handle_query "what pizza") (loaded default_data)
         = Returns (Some "No pizzas available at the moment.") st)
  ∧ (∃ st, (learn_new_response "now" "hi" "good day";; handle_query "hi")
             (loaded (with_questions default_data [qa "hi" "hello there"]))
           = Returns (Some "hello there") st).
Proof. split; eexists; vm_compute; reflexivity. Qed.

(** C1, amended.  When no intent rule matches the lowercased question
    and the store holds no entry with that lowercased question,
    [learn(q, a)] followed by [handle(q)] returns the answer [a], by an
    exact match of score 1; the store is the old one with the new entry
    appended, in the object and in the file. *)
Theorem learn_then_handle now q a st d :
  self_data st = Some d →
  find (λ rule, predicate rule (lower q)) intent_rules = None →
  Forall (λ e, question e ≠ lower q) (questions d) →
  let new_qa := {| question := lower q; answer := a; category := "general";
                   added_date := now |} in
  let d' := with_questions d (questions d ++ [new_qa]) in
  (learn_new_response now q a;; handle_query q) st
  = Returns (Some a) {| disk := Json d'; self_data := Some d';
                        stdin := stdin st; stdout := stdout st |}.
Proof.
  intros Hd Hrules Hnew new_qa d'.
  rewrite (bind_returns _ _ _ _ _ (learn_new_response_returns now q a st d Hd)).
  rewrite handle_query_router. unfold router. rewrite Hrules.
  erewrite check_knowledge_base_found; [|done|].
  - simpl. rewrite find_last; [done| |apply String.eqb_refl].
    eapply Forall_impl; [done|]. intros e He. by apply String.eqb_neq.
  - apply get_close_matches_exact; [apply cutoff_le_one|]. simpl.
    rewrite fmap_app. apply elem_of_app. right. by left.
Qed.

Lemma learn_then_handle_witness :
  (learn_new_response "now" "Do you have vegan cheese?" "Yes, on request.";;
   handle_query "Do you have vegan cheese?")
    (loaded (with_questions default_data [qa "hi" "hello there"]))
  = Returns (Some "Yes, on request.")
      (loaded (with_questions default_data
                 [ qa "hi" "hello there";
                   {| question := "do you have vegan cheese?";
                      answer := "Yes, on request."; category := "general";
                      added_date := "now" |} ])).
Proof.
  apply (learn_then_handle "now" "Do you have vegan cheese?"
           "Yes, on request."
           (loaded (with_questions default_data [qa "hi" "hello there"]))
           (with_questions default_data [qa "hi" "hello there"])).
  - reflexivity.
  - reflexivity.
  - repeat constructor. simpl. discriminate.
Defined.

(** ** C10: entries with the same question *)

(** C10.  When the fuzzy fallback selects the text [best], [handle_query]
    returns the answer of the first entry of the questions list whose
    question is [best]; an entry with that question further down the
    list never answers. *)
Theorem earliest_duplicate_answers s st d best i q :
  self_data st = Some d →
  find (λ rule, predicate rule (lower s)) intent_rules = None →
  bestMatch (lower s) (question <$> questions d) = Some (Some best) →
  questions d !! i = Some q →
  question q = best →
  (∀ j q', (j < i)%nat → questions d !! j = Some q' → question q' ≠ best) →
  handle_query s st = Returns (Some (answer q)) st.
Proof.
  intros Hd Hrules Hbest Hi Hq Hlt.
  rewrite handle_query_router. unfold router. rewrite Hrules.
  unfold bestMatch in Hbest.
  destruct (Difflib.get_close_matches _ _ _) as [[|b rest]|] eqn:Hg;
    try done. simpl in Hbest. injection Hbest as ->.
  erewrite check_knowledge_base_found; [|done..].
  rewrite (find_first _ _ i q Hi); [done|by apply String.eqb_eq|].
  intros j q' ? Hj. apply String.eqb_neq. by eapply Hlt.
Qed.

Lemma earliest_duplicate_answers_witness :
  handle_query "Hi"
    (loaded (with_questions default_data
               [qa "hi" "hello there"; qa "hi" "good day"]))
  = Returns (Some "hello there")
      (loaded (with_questions default_data
                 [qa "hi" "hello there"; qa "hi" "good day"])).
Proof.
  apply (earliest_duplicate_answers "Hi" _
           (with_questions default_data
              [qa "hi" "hello there"; qa "hi" "good day"])
           "hi" 0 (qa "hi" "hello there")).
  - reflexivity.
  - reflexivity.
  - vm_compute. reflexivity.
  - reflexivity.
  - reflexivity.
  - intros j q' Hj. lia.
Defined.

(** ** C2: ties between candidates *)

(** C2, as the claim states it, fails: "abc" and "abd" both score 4/5
    against "ab", and the second in corpus order is returned.  [max]
    compares the pairs of score and text, so among equal scores the
    greater text wins. *)
Lemma bestMatch_tie_counterexample :
  Difflib.close_enough cutoff "ab" "abc" = Some (Some ((4 # 5)%Q, "abc"))
  ∧ Difflib.close_enough cutoff "ab" "abd" = Some (Some ((4 # 5)%Q, "abd"))
  ∧ bestMatch "ab" ["abc"; "abd"] = Some (Some "abd").
Proof. repeat split; vm_compute; reflexivity. Qed.

(** C2, amended.  [bestMatch] returns a result for every input and
    corpus.  It returns nothing exactly when every text of the corpus
    scores below the cutoff.  Otherwise it returns a text [x] of the
    corpus whose score [r] is at or above the cutoff, and every text [y]
    of the corpus has a smaller score, or the same score and a text that
    is not greater than [x] by code points: among the texts that share
    the maximum score the greatest text wins, wherever it stands in the
    corpus.  The score is [ratio] itself: the two quick tests that
    [get_close_matches] runs first discard no text whose ratio reaches
    the cutoff (lemma [close_enough_ratio]). *)
Theorem bestMatch_greatest_pair input corpus :
  ∃ res, bestMatch input corpus = Some res ∧
    match res with
    | None => ∀ x, x ∈ corpus → ∃ r, score input x = Some r ∧ (r < cutoff)%Q
    | Some x =>
        x ∈ corpus ∧
        ∃ r, score input x = Some r
             ∧ (cutoff <= r)%Q
             ∧ ∀ y, y ∈ corpus →
                 ∃ r', score input y = Some r'
                       ∧ ((r' < r)%Q
                          ∨ ((r' == r)%Q ∧ String.compare y x ≠ Gt))
    end.
Proof.
  unfold bestMatch, score.
  destruct (get_close_matches_spec input corpus cutoff)
    as (res & -> & [[-> Hnone]|([r x] & -> & Hin & Hbest & Hmax)]); simpl.
  - eexists. split; [done|]. simpl. intros x Hx.
    destruct (ratio_total (list_ascii_of_string x)
                (list_ascii_of_string input)) as [r Hr].
    exists r. split; [done|]. specialize (Hnone x Hx).
    rewrite (close_enough_ratio _ _ _ _ Hr) in Hnone.
    destruct (Difflib.ge_cutoff cutoff r) eqn:Hge; [done|].
    by apply ge_cutoff_false.
  - eexists. split; [done|]. simpl in *. split; [done|]. exists r.
    apply close_enough_Some in Hbest as (_ & Hrx & Hcut). simpl in *.
    split; [done|]. split; [done|]. intros y Hy.
    destruct (ratio_total (list_ascii_of_string y)
                (list_ascii_of_string input)) as [r' Hr'].
    exists r'. split; [done|].
    pose proof (close_enough_ratio cutoff input y r' Hr') as Hc.
    destruct (Difflib.ge_cutoff cutoff r') eqn:Hge.
    + apply (Hmax y (r', y) Hy Hc).
    + left. eapply Qlt_le_trans; [by apply ge_cutoff_false|done].
Qed.

(** ** C7: a duplicate of the input in the corpus *)

(** C7, as the claim states it, fails: the matcher compares characters,
    so a corpus entry that equals the input only up to letter case is
    another text.  "H" scores 0 against "h" and nothing is returned. *)
Lemma bestMatch_case_counterexample :
  lower "H" = lower "h"
  ∧ "H" ∈ ["H"]
  ∧ bestMatch "h" ["H"] = Some None.
Proof.
  split; [reflexivity|]. split; [by left|]. vm_compute. reflexivity.
Qed.

(** C7, amended.  When the corpus contains the input itself, character
    for character, [bestMatch] returns that text, and its similarity
    score is 1. *)
Theorem bestMatch_exact_duplicate input corpus :
  input ∈ corpus →
  bestMatch input corpus = Some (Some input)
  ∧ ∃ r, Difflib.close_enough cutoff input input = Some (Some (r, input))
         ∧ (r == 1)%Q.
Proof.
  intros Hin. split.
  - unfold bestMatch.
    by rewrite (get_close_matches_exact _ _ _ cutoff_le_one Hin).
  - apply close_enough_self, cutoff_le_one.
Qed.

Lemma bestMatch_exact_duplicate_witness :
  bestMatch "what are your hours"
    ["what are your hourz"; "what are your hours"; "do you deliver to klcc"]
  = Some (Some "what are your hours").
Proof.
  apply (bestMatch_exact_duplicate "what are your hours"
    ["what are your hourz"; "what are your hours"; "do you deliver to klcc"]).
  right. left.
Defined.

(** ** C9: who writes the store *)

(** The record that [add_customer_order] appends. *)
Definition new_order_of (now eta : string) (info : gmap string string)
    (items : list OrderItem) (d : Data) : Order := {|
  order_id := "ORD" +:+ format_03d (Z.of_nat (length (orders d)) + 1);
  order_customer_name := default "" (info !! "name");
  order_phone := default "" (info !! "phone");
  order_address := default "" (info !! "address");
  order_items := items;
  order_subtotal := foldl (λ acc item, acc + item_total item) 0 items;
  order_delivery_fee := 0;
  order_status := "received";
  order_time := now;
  order_estimated_delivery := eta
|}.

Lemma add_customer_order_returns now eta info items st d :
  self_data st = Some d →
  let o := new_order_of now eta info items d in
  add_customer_order now eta info items st
  = Returns (order_id o)
      {| disk := Json (with_orders d (orders d ++ [o]));
         self_data := Some (with_orders d (orders d ++ [o]));
         stdin := stdin st; stdout := stdout st |}.
Proof.
  intros Hd. destruct st as [f o i out]. simpl in Hd. subst o. reflexivity.
Qed.

Lemma add_feedback_returns now oid rating comment st d :
  self_data st = Some d →
  let fb := {| feedback_order_id := oid; feedback_rating := rating;
               feedback_comment := comment; feedback_date := now |} in
  add_feedback now oid rating comment st
  = Returns "Thank you for your feedback!"
      {| disk := Json (with_feedback d (customer_feedback d ++ [fb]));
         self_data := Some (with_feedback d (customer_feedback d ++ [fb]));
         stdin := stdin st; stdout := stdout st |}.
Proof.
  intros Hd. destruct st as [f o i out]. simpl in Hd. subst o. reflexivity.
Qed.

(** C9.  With the store [d] loaded, [handle_query] returns on every
    input and leaves the object, the file and the terminal exactly as
    they were.  [learn_new_response] returns with the store changed in
    one place: one entry is appended to the questions list (and the new
    store is saved); the other two writers, [add_customer_order] and
    [add_feedback], leave the questions list as it is. *)
Theorem handle_query_reads_learn_appends st d :
  self_data st = Some d →
  (∀ s, ∃ r, handle_query s st = Returns r st)
  ∧ (∀ now q a, ∃ e st',
       learn_new_response now q a st = Returns () st'
       ∧ self_data st' = Some (with_questions d (questions d ++ [e]))
       ∧ disk st' = Json (with_questions d (questions d ++ [e]))
       ∧ answer e = a)
  ∧ (∀ now eta info items, ∃ r st' d',
       add_customer_order now eta info items st = Returns r st'
       ∧ self_data st' = Some d' ∧ questions d' = questions d)
  ∧ (∀ now oid rating comment, ∃ r st' d',
       add_feedback now oid rating comment st = Returns r st'
       ∧ self_data st' = Some d' ∧ questions d' = questions d).
Proof.
  intros Hd. repeat split.
  - intros s. destruct (reads_router (lower s) st d Hd) as [r Hr].
    exists r. by rewrite handle_query_router.
  - intros now q a. do 2 eexists.
    rewrite (learn_new_response_returns now q a st d Hd). by simpl.
  - intros now eta info items.
    rewrite (add_customer_order_returns now eta info items st d Hd).
    by do 3 eexists.
  - intros now oid rating comment.
    rewrite (add_feedback_returns now oid rating comment st d Hd).
    by do 3 eexists.
Qed.

Lemma handle_query_reads_learn_appends_witness :
  ∃ r, handle_query "what are your opening hours"
         (loaded (with_questions default_data [qa "hi" "hello there"]))
       = Returns r
           (loaded (with_questions default_data [qa "hi" "hello there"])).
Proof.
  apply (handle_query_reads_learn_appends
           (loaded (with_questions default_data [qa "hi" "hello there"]))
           (with_questions default_data [qa "hi" "hello there"])).
  reflexivity.
Defined.

(** ** C8: order identifiers *)

Section decimal_facts.

Lemma append_cons c s t : String c s +:+ t = String c (s +:+ t).
Proof. done. Qed.

Lemma append_empty_l t : "" +:+ t = t.
Proof. done. Qed.

Lemma append_assoc_char s c acc :
  (s +:+ String c "") +:+ acc = s +:+ String c acc.
Proof.
  induction s as [|x s IH]; [done|]. rewrite !append_cons. by f_equal.
Qed.

Lemma append_empty_r s : s +:+ "" = s.
Proof. induction s as [|x s IH]; [done|]. rewrite append_cons. by f_equal. Qed.

Lemma length_append s1 s2 :
  String.length (s1 +:+ s2) = (String.length s1 + String.length s2)%nat.
Proof.
  induction s1 as [|x s IH]; [done|]. rewrite append_cons. simpl. by f_equal.
Qed.

Lemma all_digits_append s1 s2 :
  all_digits (s1 +:+ s2) = all_digits s1 && all_digits s2.
Proof.
  induction s1 as [|x s IH]; [done|]. rewrite append_cons. simpl.
  rewrite IH. apply andb_assoc.
Qed.

Lemma decimal_value_append acc s1 s2 :
  decimal_value_from acc (s1 +:+ s2)
  = decimal_value_from (decimal_value_from acc s1) s2.
Proof.
  revert acc. induction s1 as [|x s IH]; intros acc; [done|].
  rewrite append_cons. simpl. apply IH.
Qed.

Lemma digit_char_spec d :
  0 ≤ d < 10 →
  is_digit (digit_char d) = true ∧ digit_value (digit_char d) = d
  ∧ (0 < d → digit_char d ≠ "0"%char).
Proof.
  intros ?.
  assert (d = 0 ∨ d = 1 ∨ d = 2 ∨ d = 3 ∨ d = 4 ∨ d = 5 ∨ d = 6 ∨ d = 7
          ∨ d = 8 ∨ d = 9) as Hd by lia.
  repeat (destruct Hd as [->|Hd]); try subst d;
    (split; [reflexivity|split; [reflexivity|]]); intros ?;
    try lia; discriminate.
Qed.

(** The digits that [digits_from] puts in front of [acc]. *)
Lemma digits_from_spec fuel n :
  0 ≤ n < 2 ^ Z.of_nat fuel → (0 < fuel)%nat →
  ∃ ds, (∀ acc, digits_from fuel n acc = ds +:+ acc)
        ∧ all_digits ds = true ∧ decimal_value ds = n
        ∧ (1 ≤ String.length ds)%nat
        ∧ (0 < n → String.get 0 ds ≠ Some "0"%char).
Proof.
  revert n. induction fuel as [|fuel IH]; intros n Hn Hf; [lia|].
  cbn [digits_from]. destruct (Z.ltb_spec n 10) as [Hlt|Hge].
  - rewrite Z.mod_small by lia.
    destruct (digit_char_spec n) as (Hd & Hv & Hz); [lia|].
    exists (String (digit_char n) "").
    split; [done|]. split; [|split; [|split]].
    + cbn [all_digits]. by rewrite Hd.
    + unfold decimal_value. cbn [decimal_value_from]. lia.
    + cbn [String.length]. lia.
    + intros ? [= ?]. by apply Hz.
  - rewrite Nat2Z.inj_succ, Z.pow_succ_r in Hn by lia.
    assert (0 < fuel)%nat as Hf'.
    { destruct fuel; [|lia]. simpl in Hn. lia. }
    assert (0 < 2 ^ Z.of_nat fuel) by (apply Z.pow_pos_nonneg; lia).
    destruct (IH (n / 10)) as (ds & Hds & Hall & Hval & Hlen & Hlead);
      [|done|].
    { split; [apply Z.div_pos; lia|]. apply Z.div_lt_upper_bound; lia. }
    pose proof (Z.mod_pos_bound n 10 ltac:(lia)).
    destruct (digit_char_spec (n mod 10)) as (Hd & Hv & _); [lia|].
    exists (ds +:+ String (digit_char (n mod 10)) "").
    split; [|split; [|split; [|split]]].
    + intros acc. by rewrite Hds, append_assoc_char.
    + rewrite all_digits_append, Hall. cbn [all_digits andb]. by rewrite Hd.
    + unfold decimal_value in *. rewrite decimal_value_append, Hval.
      cbn [decimal_value_from]. rewrite Hv. pose proof (Z.div_mod n 10). lia.
    + rewrite length_append. lia.
    + intros _. destruct ds as [|c ds]; [cbn [String.length] in Hlen; lia|].
      rewrite append_cons. cbn [String.get] in *. apply Hlead. assert (1 ≤ n / 10); [|lia].
      apply Z.div_le_lower_bound; lia.
Qed.

Lemma digits_spec n :
  0 ≤ n →
  all_digits (digits n) = true ∧ decimal_value (digits n) = n
  ∧ (1 ≤ String.length (digits n))%nat
  ∧ (0 < n → String.get 0 (digits n) ≠ Some "0"%char).
Proof.
  intros Hn. unfold digits.
  destruct (digits_from_spec (S (Z.to_nat (Z.log2 n))) n) as (ds & Hds & H);
    [|lia|].
  - rewrite Nat2Z.inj_succ, Z2Nat.id by apply Z.log2_nonneg.
    destruct (decide (n = 0)) as [->|]; [simpl; lia|].
    pose proof (Z.log2_spec n). lia.
  - by rewrite Hds, append_empty_r.
Qed.

Lemma zeros_spec k :
  all_digits (zeros k) = true ∧ decimal_value_from 0 (zeros k) = 0
  ∧ String.length (zeros k) = k.
Proof.
  induction k as [|k (? & ? & ?)]; [done|].
  cbn [zeros all_digits decimal_value_from String.length].
  split; [done|]. split; [done|]. lia.
Qed.

(** [format(n, "03d")] is [n] zero-padded to three digits. *)
Lemma format_03d_spec n : 0 < n → zero_padded_3 n (format_03d n).
Proof.
  intros Hn. unfold format_03d. destruct (Z.ltb_spec n 0); [lia|].
  destruct (digits_spec n) as (Hall & Hval & Hlen & Hlead); [lia|].
  unfold zfill. set (k := (3 - String.length (digits n))%nat).
  destruct (zeros_spec k) as (Hz & Hzv & Hzl).
  split; [|split; [|split]].
  - by rewrite all_digits_append, Hz, Hall.
  - unfold decimal_value in *. by rewrite decimal_value_append, Hzv.
  - rewrite length_append, Hzl. lia.
  - rewrite length_append, Hzl. intros ?.
    assert (k = 0%nat) as -> by lia. simpl. rewrite append_empty_l.
    by apply Hlead.
Qed.

End decimal_facts.

(** C8.  When the orders list holds [N - 1] records, [add_customer_order]
    returns, and stores in the appended record, the identifier "ORD"
    followed by [N] zero-padded to three digits. *)
Theorem order_id_sequential now eta info items st d N :
  1 ≤ N →
  self_data st = Some d →
  Z.of_nat (length (orders d)) = N - 1 →
  ∃ padded o st',
    add_customer_order now eta info items st
    = Returns ("ORD" +:+ padded) st'
    ∧ zero_padded_3 N padded
    ∧ orders <$> self_data st' = Some (orders d ++ [o])
    ∧ order_id o = "ORD" +:+ padded.
Proof.
  intros HN Hd Hlen. exists (format_03d N).
  exists (new_order_of now eta info items d). eexists.
  rewrite (add_customer_order_returns now eta info items st d Hd).
  unfold new_order_of. cbn [order_id].
  replace (Z.of_nat (length (orders d)) + 1) with N by lia.
  split; [reflexivity|]. split; [apply format_03d_spec; lia|].
  split; reflexivity.
Qed.

Lemma order_id_sequential_witness :
  ∃ padded o st',
    add_customer_order "2024-05-01T12:00:00" "2024-05-01T12:40:00"
      {[ "name" := "Aina" ]} [ {| item_total := 30 |} ] (loaded default_data)
    = Returns ("ORD" +:+ padded) st'
    ∧ zero_padded_3 1 padded
    ∧ orders <$> self_data st' = Some (orders default_data ++ [o])
    ∧ order_id o = "ORD" +:+ padded.
Proof.
  apply (order_id_sequential "2024-05-01T12:00:00" "2024-05-01T12:40:00"
           {[ "name" := "Aina" ]} [ {| item_total := 30 |} ]
           (loaded default_data) default_data 1).
  - lia.
  - reflexivity.
  - reflexivity.
Defined.

(** The first two orders of an empty store. *)
Example first_two_order_ids :
  ∃ st1 st2,
    add_customer_order "t1" "e1" ∅ [] (loaded default_data)
    = Returns "ORD001" st1
    ∧ add_customer_order "t2" "e2" ∅ [] st1 = Returns "ORD002" st2.
Proof. do 2 eexists. split; vm_compute; reflexivity. Qed.

(** * Further properties of the code *)

(** The rule at the least index whose predicate holds resolves the
    query. *)
Lemma router_first_match s st i rule :
  intent_rules !! i = Some rule →
  predicate rule (lower s) = true →
  (∀ j rule', (j < i)%nat → intent_rules !! j = Some rule' →
              predicate rule' (lower s) = false) →
  handle_query s st = resolve rule (lower s) st.
Proof.
  intros Hi Hp Hlt. rewrite handle_query_router. unfold router.
  by rewrite (find_first _ _ i rule Hi Hp Hlt).
Qed.


(** The value a method returns, when it returns. *)
Definition returned {A} (o : Outcome A) : option A :=
  match o with
  | Returns x _ => Some x
  | _ => None
  end.

(** A new object, not yet initialized, beside the file [f]. *)
Definition fresh (f : File) (lines out : list string) : State :=
  {| disk := f; self_data := None; stdin := lines; stdout := out |}.

(** ** Storage: [__init__], [load_data], [save_data] *)

(** X2.  The failed first start spoils the later ones: the file that
    [save_data] created is empty, so the next [__init__] beside it fails
    in [json.load], whatever the terminal holds. *)
Theorem failed_start_blocks_restart lines out lines' out' :
  ∃ st, init (fresh Absent lines out) = Raises AttributeError st
        ∧ init (fresh (disk st) lines' out')
          = Raises JSONDecodeError (fresh Blank lines' out').
Proof. eexists. split; reflexivity. Qed.

(** ** Substrings *)

Section contains_facts.

Lemma prefix_append n t : String.prefix n (n +:+ t) = true.
Proof.
  induction n as [|c n IH]; [by destruct t|]. rewrite append_cons. simpl.
  by destruct (ascii_dec c c).
Qed.

Lemma prefix_append_r n h t :
  String.prefix n h = true → String.prefix n (h +:+ t) = true.
Proof.
  revert h. induction n as [|c n IH]; intros h; [by destruct (h +:+ t)|].
  destruct h as [|x h]; [done|]. rewrite append_cons. simpl.
  destruct (ascii_dec c x); [apply IH|done].
Qed.

Lemma contains_unfold n h :
  contains n h
  = String.prefix n h
    || match h with EmptyString => false | String _ h' => contains n h' end.
Proof. by destruct h. Qed.

Lemma contains_append_r n h t :
  contains n h = true → contains n (h +:+ t) = true.
Proof.
  induction h as [|x h IH].
  - rewrite append_empty_l, contains_unfold, orb_false_r.
    destruct n; [intros _|done]. by destruct t.
  - rewrite append_cons, (contains_unfold n (String x h)),
      (contains_unfold n (String x (h +:+ t))).
    intros [Hp|Hc]%orb_true_iff; apply orb_true_iff.
    + left. by apply (prefix_append_r n (String x h)).
    + right. by apply IH.
Qed.

Lemma contains_append_l n p h :
  contains n h = true → contains n (p +:+ h) = true.
Proof.
  intros Hc. induction p as [|x p IH]; [done|].
  rewrite append_cons, contains_unfold, IH. apply orb_true_r.
Qed.

Lemma contains_prefix n t : contains n (n +:+ t) = true.
Proof. rewrite contains_unfold, prefix_append. done. Qed.

(** A text put between two others is found in the whole. *)
Lemma contains_middle n p t : contains n (p +:+ n +:+ t) = true.
Proof. apply contains_append_l, contains_prefix. Qed.

Lemma contains_empty h : contains "" h = true.
Proof. by destruct h. Qed.

(** A response built by appending one line per entry holds the line of
    every entry. *)
Lemma lines_contain {A} (line : A → string) items init x :
  x ∈ items →
  contains (line x) (foldl (λ result item, result +:+ line item) init items)
  = true.
Proof.
  assert (∀ l acc n, contains n acc = true →
            contains n (foldl (λ result item, result +:+ line item) acc l)
            = true) as Hkeep.
  { induction l as [|y l IH]; intros acc n Hn; [done|]. simpl.
    by apply IH, contains_append_r. }
  revert init. induction items as [|y items IH]; intros init Hx;
    [by apply elem_of_nil in Hx|].
  simpl. apply elem_of_cons in Hx as [->|Hx]; [|by apply IH].
  apply Hkeep. rewrite <- (append_empty_r (line y)) at 2.
  apply contains_middle.
Qed.

End contains_facts.

(** ** Menus: [get_menu_by_category] *)

(** The price tiers of a pizza as its line shows them. *)
Definition price_tiers (p : Pizza) : string :=
  "RM" +:+ str_int (price_regular p) +:+ "/RM" +:+ str_int (price_large p)
  +:+ "/RM" +:+ str_int (price_family p) +:+ " (R/L/F)".

Lemma pizza_line_shows p :
  contains (pizza_name p +:+ " - " +:+ price_tiers p) (pizza_line p) = true.
Proof.
  unfold pizza_line, price_tiers.
  set (r := str_int (price_regular p)). set (l := str_int (price_large p)).
  set (f := str_int (price_family p)).
  assert (∀ a b c : string, (a +:+ b) +:+ c = a +:+ b +:+ c) as Hassoc.
  { intros a b c. induction a as [|x a IH]; [done|].
    rewrite !append_cons. by f_equal. }
  rewrite !Hassoc.
  assert (∀ n t u : string, contains n t = true →
            contains n (u +:+ t) = true) as Hl
    by (intros; by apply contains_append_l).
  apply (Hl _ _ "• ").
  replace (pizza_name p +:+ " - " +:+ "RM" +:+ r +:+ "/RM" +:+ l +:+ "/RM"
           +:+ f +:+ " (R/L/F)" +:+ nl +:+ "  " +:+ pizza_description p +:+ nl)
    with ((pizza_name p +:+ " - " +:+ "RM" +:+ r +:+ "/RM" +:+ l +:+ "/RM"
           +:+ f +:+ " (R/L/F)") +:+ nl +:+ "  " +:+ pizza_description p +:+ nl)
    by (by rewrite !Hassoc).
  apply contains_prefix.
Qed.

(** X4.  A question for the pizza menu is answered with a text that
    holds the line of every pizza of the store, and each line shows the
    name with the three prices in the order regular, large, family. *)
Theorem pizza_menu_lists_every_pizza s st d p :
  self_data st = Some d →
  predicate pizza_rule (lower s) = true →
  p ∈ pizzas (menu d) →
  ∃ text, handle_query s st = Returns (Some text) st
          ∧ contains (pizza_line p) text = true
          ∧ contains (pizza_name p +:+ " - " +:+ price_tiers p) (pizza_line p)
            = true.
Proof.
  intros Hd Hp Hin.
  rewrite (router_first_match s st 0 pizza_rule eq_refl Hp)
    by (intros j r ?; lia).
  cbn [resolve pizza_rule]. unfold get_menu_by_category.
  erewrite fmap_returns;
    [|by rewrite (bind_returns _ _ _ _ _ (get_data_returns _ _ Hd))].
  eexists. split; [done|]. split; [|apply pizza_line_shows].
  unfold menu_lines. destruct (pizzas (menu d)) as [|p0 ps] eqn:Hps;
    [by apply elem_of_nil in Hin|].
  by apply lines_contain.
Qed.

Lemma pizza_menu_lists_every_pizza_witness :
  let margherita := {| pizza_id := "p1"; pizza_name := "Margherita";
                       pizza_description := "Tomato and cheese";
                       price_regular := 20; price_large := 30;
                       price_family := 40 |} in
  let d := {| restaurant_info := restaurant_info default_data;
              menu := {| pizzas := [margherita]; sides := []; drinks := [] |};
              delivery_zones := []; promotions := []; orders := [];
              questions := []; customer_feedback := [];
              analytics := analytics default_data; staff_notes := [] |} in
  ∃ text, handle_query "show pizza menu" (loaded d) = Returns (Some text) (loaded d)
          ∧ contains (pizza_line margherita) text = true
          ∧ contains ("Margherita - RM20/RM30/RM40 (R/L/F)")
              (pizza_line margherita) = true.
Proof.
  intros margherita d.
  apply (pizza_menu_lists_every_pizza "show pizza menu" (loaded d) d margherita).
  - reflexivity.
  - reflexivity.
  - by left.
Defined.

(** ** Promotions: [get_active_promotions] *)

Definition active (p : Promotion) : Prop := default false (promo_is_active p) = true.

Definition promo_line (promo : Promotion) : string :=
  "• " +:+ promo_title promo +:+ ": " +:+ promo_description promo +:+ nl.

Lemma get_active_promotions_returns st d :
  self_data st = Some d →
  get_active_promotions st
  = Returns (match filter active (promotions d) with
             | [] => "No active promotions at the moment."
             | _ => foldl (λ result promo, result +:+ promo_line promo)
                      ("🎉 CURRENT DEALS:" +:+ nl)
                      (filter active (promotions d))
             end) st.
Proof.
  intros Hd. unfold get_active_promotions.
  rewrite (bind_returns _ _ _ _ _ (get_data_returns _ _ Hd)).
  fold active. by destruct (filter active (promotions d)).
Qed.

Lemma filter_none {A} (P : A → Prop) `{!∀ x, Decision (P x)} (l : list A) :
  Forall (λ x, ¬ P x) l → filter P l = [].
Proof.
  induction 1 as [|x l Hx _ IH]; [done|]. by rewrite filter_cons_False.
Qed.

(** X5.  When no promotion of the store is active (the flag is false or
    missing), a question that reaches the promotions rule is resolved with
    the fixed message; it is not left unresolved. *)
Theorem no_active_promotions_message s st d :
  self_data st = Some d →
  Forall (λ p, default false (promo_is_active p) = false) (promotions d) →
  Forall (λ rule, predicate rule (lower s) = false)
    [pizza_rule; sides_rule; drinks_rule; delivery_rule] →
  predicate promotions_rule (lower s) = true →
  handle_query s st = Returns (Some "No active promotions at the moment.") st.
Proof.
  intros Hd Hnone Hearlier Hp.
  rewrite (router_first_match s st 4 promotions_rule eq_refl Hp).
  - cbn [resolve promotions_rule].
    erewrite fmap_returns; [|by apply get_active_promotions_returns].
    rewrite filter_none; [done|].
    eapply Forall_impl; [done|]. unfold active. intros p ->. done.
  - intros j rule Hj Hr. rewrite Forall_forall in Hearlier. apply Hearlier.
    apply list_elem_of_lookup. exists j.
    destruct j as [|[|[|[|j]]]]; try done. lia.
Qed.

Lemma no_active_promotions_message_witness :
  let d := {| restaurant_info := restaurant_info default_data;
              menu := menu default_data; delivery_zones := [];
              promotions := [ {| promo_is_active := Some false;
                                 promo_title := "Old deal";
                                 promo_description := "Gone" |};
                              {| promo_is_active := None;
                                 promo_title := "Draft";
                                 promo_description := "Not yet" |} ];
              orders := []; questions := []; customer_feedback := [];
              analytics := analytics default_data; staff_notes := [] |} in
  handle_query "any deals?" (loaded d)
  = Returns (Some "No active promotions at the moment.") (loaded d).
Proof.
  intros d. apply (no_active_promotions_message "any deals?" (loaded d) d).
  - reflexivity.
  - by repeat constructor.
  - by repeat constructor.
  - reflexivity.
Defined.

(** X6.  Every active promotion of the store has its line, title and
    description, in the response of [get_active_promotions]. *)
Theorem active_promotions_listed st d p :
  self_data st = Some d →
  p ∈ promotions d → promo_is_active p = Some true →
  ∃ text, get_active_promotions st = Returns text st
          ∧ contains (promo_line p) text = true.
Proof.
  intros Hd Hin Hact. rewrite (get_active_promotions_returns st d Hd).
  eexists. split; [done|].
  assert (p ∈ filter active (promotions d)) as Hf.
  { apply list_elem_of_filter. split; [|done]. unfold active. by rewrite Hact. }
  destruct (filter active (promotions d)) as [|p0 ps];
    [by apply elem_of_nil in Hf|].
  by apply lines_contain.
Qed.

Lemma active_promotions_listed_witness :
  let deal := {| promo_is_active := Some true; promo_title := "Tuesday";
                 promo_description := "Two for one" |} in
  let d := {| restaurant_info := restaurant_info default_data;
              menu := menu default_data; delivery_zones := [];
              promotions := [deal]; orders := []; questions := [];
              customer_feedback := []; analytics := analytics default_data;
              staff_notes := [] |} in
  ∃ text, get_active_promotions (loaded d) = Returns text (loaded d)
          ∧ contains (promo_line deal) text = true.
Proof.
  intros deal d. apply (active_promotions_listed (loaded d) d deal).
  - reflexivity.
  - by left.
  - reflexivity.
Defined.

(** X7.  Promotions that are not active never show: two stores with the
    same active promotions, in the same order, get the same response. *)
Theorem inactive_promotions_ignored st1 d1 st2 d2 :
  self_data st1 = Some d1 → self_data st2 = Some d2 →
  filter active (promotions d1) = filter active (promotions d2) →
  returned (get_active_promotions st1) = returned (get_active_promotions st2).
Proof.
  intros H1 H2 Heq.
  rewrite (get_active_promotions_returns st1 d1 H1),
    (get_active_promotions_returns st2 d2 H2). simpl. by rewrite Heq.
Qed.

Lemma inactive_promotions_ignored_witness :
  let deal := {| promo_is_active := Some true; promo_title := "Tuesday";
                 promo_description := "Two for one" |} in
  let old := {| promo_is_active := Some false; promo_title := "Old";
                promo_description := "Gone" |} in
  let store ps := {| restaurant_info := restaurant_info default_data;
                     menu := menu default_data; delivery_zones := [];
                     promotions := ps; orders := []; questions := [];
                     customer_feedback := [];
                     analytics := analytics default_data;
                     staff_notes := [] |} in
  returned (get_active_promotions (loaded (store [old; deal; old])))
  = returned (get_active_promotions (loaded (store [deal]))).
Proof.
  intros deal old store.
  apply (inactive_promotions_ignored (loaded (store [old; deal; old]))
           (store [old; deal; old]) (loaded (store [deal])) (store [deal]));
    reflexivity.
Defined.

(** ** Delivery zones: [check_delivery_area] *)

Definition zone_matches (area : string) (zone : Zone) : bool :=
  contains (lower area) (lower (zone_area zone)).

Lemma check_delivery_area_returns area st d :
  self_data st = Some d →
  check_delivery_area area st
  = Returns (match find (zone_matches area) (delivery_zones d) with
             | Some zone => zone_line zone
             | None => "Please call us to check if we deliver to your area: "
                       +:+ info_phone (restaurant_info d)
             end) st.
Proof.
  intros Hd. unfold check_delivery_area.
  rewrite (bind_returns _ _ _ _ _ (get_data_returns _ _ Hd)).
  fold (zone_matches area). destruct (find _ _); [done|].
  by rewrite (bind_returns _ _ _ _ _ (get_data_returns _ _ Hd)).
Qed.

(** A store with two delivery zones. *)
Definition sample_zones : list Zone :=
  [ {| zone_area := "KLCC"; zone_delivery_fee := 0; zone_min_order := 30;
       zone_estimated_time := "30 min" |};
    {| zone_area := "Petaling Jaya (PJ)"; zone_delivery_fee := 5;
       zone_min_order := 25; zone_estimated_time := "45 min" |} ].

Definition store_with_zones (zones : list Zone) : Data :=
  {| restaurant_info := restaurant_info default_data;
     menu := menu default_data; delivery_zones := zones; promotions := [];
     orders := []; questions := []; customer_feedback := [];
     analytics := analytics default_data; staff_notes := [] |}.

(** X8.  An area that no zone of the store names is answered with the
    request to call, which ends with the phone number of the store. *)
Theorem unknown_area_call_us area st d :
  self_data st = Some d →
  Forall (λ zone, zone_matches area zone = false) (delivery_zones d) →
  check_delivery_area area st
  = Returns ("Please call us to check if we deliver to your area: "
             +:+ info_phone (restaurant_info d)) st.
Proof.
  intros Hd Hnone. rewrite (check_delivery_area_returns area st d Hd).
  rewrite existsb_false_find; [done|].
  induction Hnone as [|z zs Hz _ IH]; [done|]. simpl. by rewrite Hz.
Qed.

Lemma unknown_area_call_us_witness :
  check_delivery_area "Ampang" (loaded (store_with_zones sample_zones))
  = Returns "Please call us to check if we deliver to your area: (123) 456-7890"
      (loaded (store_with_zones sample_zones)).
Proof.
  apply (unknown_area_call_us "Ampang"
           (loaded (store_with_zones sample_zones))
           (store_with_zones sample_zones)).
  - reflexivity.
  - constructor; [vm_compute; reflexivity|].
    constructor; [vm_compute; reflexivity|]. constructor.
Defined.

(** X9.  The first zone of the store whose name contains the area, both
    lowercased, answers; zones after it are not looked at, and the fee
    shows as FREE exactly when it is 0. *)
Theorem first_matching_zone_answers area st d i zone :
  self_data st = Some d →
  delivery_zones d !! i = Some zone →
  zone_matches area zone = true →
  (∀ j z, (j < i)%nat → delivery_zones d !! j = Some z →
          zone_matches area z = false) →
  check_delivery_area area st = Returns (zone_line zone) st
  ∧ contains (if zone_delivery_fee zone =? 0 then "Delivery FREE"
              else "Delivery RM" +:+ str_int (zone_delivery_fee zone))
      (zone_line zone) = true.
Proof.
  intros Hd Hi Hm Hlt. split.
  - rewrite (check_delivery_area_returns area st d Hd).
    by rewrite (find_first _ _ i zone Hi Hm Hlt).
  - unfold zone_line. destruct (zone_delivery_fee zone =? 0).
    + apply (contains_append_l _ "📍 "), contains_append_l.
      apply (contains_append_l _ ": "). apply (contains_prefix "Delivery FREE").
    + apply (contains_append_l _ "📍 "), contains_append_l.
      apply (contains_append_l _ ": ").
      set (fee := str_int (zone_delivery_fee zone)).
      apply (contains_middle ("Delivery RM" +:+ fee) "").
Qed.

Lemma first_matching_zone_answers_witness :
  check_delivery_area "pj" (loaded (store_with_zones sample_zones))
  = Returns "📍 Petaling Jaya (PJ): Delivery RM5 (Min order: RM25, Time: 45 min)"
      (loaded (store_with_zones sample_zones)).
Proof.
  apply (first_matching_zone_answers "pj"
           (loaded (store_with_zones sample_zones))
           (store_with_zones sample_zones) 1
           {| zone_area := "Petaling Jaya (PJ)"; zone_delivery_fee := 5;
              zone_min_order := 25; zone_estimated_time := "45 min" |}).
  - reflexivity.
  - reflexivity.
  - reflexivity.
  - intros [|j] z Hj Hz; [injection Hz as <-; reflexivity|lia].
Defined.

(** The letter case of the area does not matter: two areas with the
    same lowercased form get the same answer. *)
Lemma delivery_area_any_case area1 area2 st :
  lower area1 = lower area2 →
  check_delivery_area area1 st = check_delivery_area area2 st.
Proof. intros Heq. unfold check_delivery_area. by rewrite Heq. Qed.

Lemma delivery_area_any_case_witness :
  check_delivery_area "KLCC" (loaded (store_with_zones sample_zones))
  = check_delivery_area "klcc" (loaded (store_with_zones sample_zones)).
Proof. apply (delivery_area_any_case "KLCC" "klcc"). reflexivity. Defined.

(** X10.  The empty area is contained in every name: with at least one
    zone in the store, [check_delivery_area("")] answers with the first
    zone. *)
Theorem empty_area_first_zone st d zone zones :
  self_data st = Some d →
  delivery_zones d = zone :: zones →
  check_delivery_area "" st = Returns (zone_line zone) st.
Proof.
  intros Hd Hz. rewrite (check_delivery_area_returns "" st d Hd), Hz.
  simpl. unfold zone_matches. by rewrite contains_empty.
Qed.

Lemma empty_area_first_zone_witness :
  check_delivery_area "" (loaded (store_with_zones sample_zones))
  = Returns "📍 KLCC: Delivery FREE (Min order: RM30, Time: 30 min)"
      (loaded (store_with_zones sample_zones)).
Proof.
  apply (empty_area_first_zone (loaded (store_with_zones sample_zones))
           (store_with_zones sample_zones) _ _ eq_refl eq_refl).
Defined.

(** X11.  Of the area names in a delivery question the one that comes
    first in the fixed list klcc, pj, subang, petaling is looked up,
    wherever the names stand in the question. *)
Theorem delivery_area_priority s st i area :
  Forall (λ rule, predicate rule (lower s) = false)
    [pizza_rule; sides_rule; drinks_rule] →
  contains "deliver" (lower s) = true →
  areas !! i = Some area →
  contains area (lower s) = true →
  (∀ j other, (j < i)%nat → areas !! j = Some other →
              contains other (lower s) = false) →
  handle_query s st = (Some <$> check_delivery_area area) st.
Proof.
  intros Hearlier Hdel Hi Harea Hlt.
  assert (find (λ area, contains area (lower s)) areas = Some area) as Hfind
    by by apply (find_first _ _ i).
  assert (predicate delivery_rule (lower s) = true) as Hp.
  { cbn [predicate delivery_rule]. rewrite Hdel. unfold any_in.
    apply existsb_exists. exists area. split; [|done].
    apply list_elem_of_In, list_elem_of_lookup. by exists i. }
  rewrite (router_first_match s st 3 delivery_rule eq_refl Hp).
  - cbn [resolve delivery_rule]. by rewrite Hfind.
  - intros j rule Hj Hr. rewrite Forall_forall in Hearlier. apply Hearlier.
    apply list_elem_of_lookup. exists j.
    destruct j as [|[|[|j]]]; try done. lia.
Qed.

Lemma delivery_area_priority_witness :
  handle_query "Do you deliver to Subang or KLCC?"
    (loaded (store_with_zones sample_zones))
  = Returns (Some "📍 KLCC: Delivery FREE (Min order: RM30, Time: 30 min)")
      (loaded (store_with_zones sample_zones)).
Proof.
  rewrite (delivery_area_priority "Do you deliver to Subang or KLCC?"
             (loaded (store_with_zones sample_zones)) 0 "klcc").
  - reflexivity.
  - by repeat constructor.
  - reflexivity.
  - reflexivity.
  - reflexivity.
  - intros j other Hj. lia.
Defined.

(** ** Popular items: [get_popular_items] *)

Lemma get_popular_items_returns st d :
  self_data st = Some d →
  get_popular_items st
  = Returns (match popular_items (analytics d) with
             | [] => "Our most popular items are Pepperoni and Margherita pizzas!"
             | _ => foldl (λ result item,
                             result +:+ popular_line (pizzas (menu d)) item)
                      ("🔥 POPULAR ITEMS:" +:+ nl)
                      (take 3 (popular_items (analytics d)))
             end) st.
Proof.
  intros Hd. unfold get_popular_items.
  rewrite (bind_returns _ _ _ _ _ (get_data_returns _ _ Hd)).
  destruct (popular_items (analytics d)) eqn:Hp; [done|].
  rewrite (bind_returns _ _ _ _ _ (get_data_returns _ _ Hd)).
  by rewrite Hp.
Qed.

(** X12.  No more than the first three popular items are shown: stores
    with the same pizzas and the same first three popular items get the
    same response, whatever follows in the list. *)
Theorem popular_items_first_three st1 d1 st2 d2 :
  self_data st1 = Some d1 → self_data st2 = Some d2 →
  pizzas (menu d1) = pizzas (menu d2) →
  take 3 (popular_items (analytics d1)) = take 3 (popular_items (analytics d2)) →
  returned (get_popular_items st1) = returned (get_popular_items st2).
Proof.
  intros H1 H2 Hp Ht.
  rewrite (get_popular_items_returns st1 d1 H1),
    (get_popular_items_returns st2 d2 H2). simpl. rewrite Hp, Ht.
  destruct (popular_items (analytics d1)), (popular_items (analytics d2));
    done.
Qed.

Definition store_with_popular (items : list PopularItem) : Data :=
  {| restaurant_info := restaurant_info default_data;
     menu := menu default_data; delivery_zones := []; promotions := [];
     orders := []; questions := []; customer_feedback := [];
     analytics := {| popular_items := items; peak_hours := [];
                     busiest_days := [] |};
     staff_notes := [] |}.

Lemma popular_items_first_three_witness :
  let item n := {| popular_item_id := "p"; popular_order_count := n |} in
  returned (get_popular_items
              (loaded (store_with_popular [item 9; item 7; item 5; item 3; item 1])))
  = returned (get_popular_items
                (loaded (store_with_popular [item 9; item 7; item 5]))).
Proof.
  intros item.
  apply (popular_items_first_three
           (loaded (store_with_popular [item 9; item 7; item 5; item 3; item 1]))
           (store_with_popular [item 9; item 7; item 5; item 3; item 1])
           (loaded (store_with_popular [item 9; item 7; item 5]))
           (store_with_popular [item 9; item 7; item 5])); reflexivity.
Defined.

(** ** Orders: [add_customer_order] *)

(** The identifiers of the orders list count up from 1. *)
Definition ids_sequential (os : list Order) : Prop :=
  ∀ i o, os !! i = Some o →
         order_id o = "ORD" +:+ format_03d (Z.of_nat i + 1).

Lemma format_03d_inj n m : 0 < n → 0 < m → format_03d n = format_03d m → n = m.
Proof.
  intros Hn Hm Heq.
  destruct (format_03d_spec n Hn) as (_ & <- & _).
  destruct (format_03d_spec m Hm) as (_ & <- & _). by rewrite Heq.
Qed.

Lemma ids_sequential_NoDup os :
  ids_sequential os → NoDup (order_id <$> os).
Proof.
  intros Hseq. apply NoDup_alt. intros i j x Hi Hj.
  apply list_lookup_fmap_Some in Hi as (oi & -> & Hi).
  apply list_lookup_fmap_Some in Hj as (oj & Hx & Hj).
  rewrite (Hseq i oi Hi), (Hseq j oj Hj) in Hx.
  injection Hx as Hx. apply format_03d_inj in Hx; lia.
Qed.

(** X13.  Order identifiers stay distinct: when the identifiers of the
    store count up from ORD001, they still do after [add_customer_order],
    and no two orders of the new store share an identifier. *)
Theorem order_ids_stay_distinct now eta info items st d :
  self_data st = Some d →
  ids_sequential (orders d) →
  ∃ r st' d',
    add_customer_order now eta info items st = Returns r st'
    ∧ self_data st' = Some d'
    ∧ ids_sequential (orders d')
    ∧ NoDup (order_id <$> orders d').
Proof.
  intros Hd Hseq.
  rewrite (add_customer_order_returns now eta info items st d Hd).
  do 3 eexists. split; [done|]. split; [done|]. simpl.
  assert (ids_sequential (orders d ++ [new_order_of now eta info items d]))
    as Hseq'.
  { intros i o [Hi|[Hlen Hi]]%lookup_app_Some; [by apply Hseq|].
    apply list_lookup_singleton_Some in Hi as [Hi <-]. simpl.
    do 2 f_equal. lia. }
  split; [done|]. by apply ids_sequential_NoDup.
Qed.

(** A store that holds two orders already. *)
Definition sample_orders : list Order :=
  [ {| order_id := "ORD001"; order_customer_name := "Aina";
       order_phone := "012-3456789"; order_address := "KLCC";
       order_items := [{| item_total := 30 |}]; order_subtotal := 30;
       order_delivery_fee := 0; order_status := "received";
       order_time := "t1"; order_estimated_delivery := "e1" |};
    {| order_id := "ORD002"; order_customer_name := "Ben";
       order_phone := "019-8765432"; order_address := "PJ";
       order_items := [{| item_total := 25 |}; {| item_total := 8 |}];
       order_subtotal := 33; order_delivery_fee := 0;
       order_status := "received";
       order_time := "t2"; order_estimated_delivery := "e2" |} ].

Lemma order_ids_stay_distinct_witness :
  ∃ r st' d',
    add_customer_order "t3" "e3" ∅ []
      (loaded (with_orders default_data sample_orders)) = Returns r st'
    ∧ self_data st' = Some d'
    ∧ ids_sequential (orders d')
    ∧ NoDup (order_id <$> orders d').
Proof.
  apply (order_ids_stay_distinct "t3" "e3" ∅ []
           (loaded (with_orders default_data sample_orders))
           (with_orders default_data sample_orders) eq_refl).
  intros i o Hi. destruct i as [|[|i]]; simpl in Hi.
  - injection Hi as <-. vm_compute. reflexivity.
  - injection Hi as <-. vm_compute. reflexivity.
  - discriminate Hi.
Defined.

(** X14.  The subtotal of the recorded order is the sum of the totals of
    its items, and its delivery fee is 0 and its status "received",
    whatever the customer and the store. *)
Theorem recorded_order_subtotal now eta info items st d :
  self_data st = Some d →
  ∃ r st' d' o,
    add_customer_order now eta info items st = Returns r st'
    ∧ self_data st' = Some d' ∧ last (orders d') = Some o
    ∧ order_subtotal o = foldr (λ item acc, item_total item + acc) 0 items
    ∧ order_delivery_fee o = 0 ∧ order_status o = "received"
    ∧ order_items o = items.
Proof.
  intros Hd. rewrite (add_customer_order_returns now eta info items st d Hd).
  do 4 eexists. split; [done|]. split; [done|]. simpl. rewrite last_snoc.
  split; [done|]. simpl. repeat split.
  assert (∀ l acc, foldl (λ acc item, acc + item_total item) acc l
                   = acc + foldr (λ item acc, item_total item + acc) 0 l) as H.
  { induction l as [|x l IH]; intros acc; simpl; [lia|]. rewrite IH. lia. }
  by rewrite H.
Qed.

Lemma recorded_order_subtotal_witness :
  ∃ r st' d' o,
    add_customer_order "t" "e" ∅
      [ {| item_total := 30 |}; {| item_total := 12 |} ] (loaded default_data)
    = Returns r st'
    ∧ self_data st' = Some d' ∧ last (orders d') = Some o
    ∧ order_subtotal o = 42
    ∧ order_delivery_fee o = 0 ∧ order_status o = "received"
    ∧ order_items o = [ {| item_total := 30 |}; {| item_total := 12 |} ].
Proof.
  apply (recorded_order_subtotal "t" "e" ∅
           [ {| item_total := 30 |}; {| item_total := 12 |} ]
           (loaded default_data) default_data eq_refl).
Defined.

(** ** Learning: [learn_new_response] *)

(** X15.  Learned questions are stored lowercased: when every question of
    the store is in lowercase, so is every question after
    [learn_new_response], whatever the case of the question learned. *)
Theorem learned_questions_lowercase now q a st d :
  self_data st = Some d →
  Forall (λ e, lower (question e) = question e) (questions d) →
  ∃ st' d', learn_new_response now q a st = Returns () st'
            ∧ self_data st' = Some d'
            ∧ Forall (λ e, lower (question e) = question e) (questions d').
Proof.
  intros Hd Hlow. rewrite (learn_new_response_returns now q a st d Hd).
  do 2 eexists. split; [done|]. split; [done|]. simpl.
  apply Forall_app. split; [done|]. constructor; [|done]. simpl.
  apply lower_idemp.
Qed.

Lemma learned_questions_lowercase_witness :
  ∃ st' d', learn_new_response "now" "Are You HALAL?" "Yes."
              (loaded (with_questions default_data [qa "hi" "hello there"]))
            = Returns () st'
            ∧ self_data st' = Some d'
            ∧ Forall (λ e, lower (question e) = question e) (questions d').
Proof.
  apply (learned_questions_lowercase "now" "Are You HALAL?" "Yes."
           (loaded (with_questions default_data [qa "hi" "hello there"]))
           (with_questions default_data [qa "hi" "hello there"]) eq_refl).
  by repeat constructor.
Defined.

Lemma find_app_Some {A} (f : A → bool) l1 l2 x :
  find f l1 = Some x → find f (l1 ++ l2) = Some x.
Proof.
  induction l1 as [|y l1 IH]; simpl; [done|]. by destruct (f y).
Qed.

(** X16.  Teaching a question a second time does not replace the first
    answer: after [learn(q, a1)] and [learn(q, a2)], [handle(q)] still
    returns [a1], since the second entry is appended behind the first. *)
Theorem relearning_keeps_first_answer now1 now2 q a1 a2 st d :
  self_data st = Some d →
  find (λ rule, predicate rule (lower q)) intent_rules = None →
  Forall (λ e, question e ≠ lower q) (questions d) →
  ∃ st', (learn_new_response now1 q a1;; learn_new_response now2 q a2;;
          handle_query q) st = Returns (Some a1) st'.
Proof.
  intros Hd Hrules Hnew.
  rewrite (bind_returns _ _ _ _ _ (learn_new_response_returns now1 q a1 st d Hd)).
  erewrite bind_returns; [|by apply learn_new_response_returns]. simpl.
  rewrite handle_query_router. unfold router. rewrite Hrules.
  erewrite check_knowledge_base_found; [|done|].
  - simpl.
    rewrite (find_app_Some _ _ _
               {| question := lower q; answer := a1; category := "general";
                  added_date := now1 |}); [by eexists|].
    apply find_last; [|apply String.eqb_refl].
    eapply Forall_impl; [done|]. intros e He. by apply String.eqb_neq.
  - apply get_close_matches_exact; [apply cutoff_le_one|]. simpl.
    rewrite !fmap_app. apply elem_of_app. right. by left.
Qed.

Lemma relearning_keeps_first_answer_witness :
  ∃ st', (learn_new_response "t1" "Are you halal?" "Yes.";;
          learn_new_response "t2" "Are you halal?" "Ask the staff.";;
          handle_query "Are you halal?") (loaded default_data)
         = Returns (Some "Yes.") st'.
Proof.
  apply (relearning_keeps_first_answer "t1" "t2" "Are you halal?" "Yes."
           "Ask the staff." (loaded default_data) default_data);
    [reflexivity|reflexivity|constructor].
Defined.

(** ** The resolver: [handle_query] *)

Lemma get_close_matches_nil word c :
  Difflib.get_close_matches word [] c = Some [].
Proof. done. Qed.

Lemma check_knowledge_base_none u st d :
  self_data st = Some d →
  Difflib.get_close_matches u (question <$> questions d) cutoff = Some [] →
  check_knowledge_base u st = Returns None st.
Proof.
  intros Hd Hg. unfold check_knowledge_base.
  rewrite (bind_returns _ _ _ _ _ (get_data_returns _ _ Hd)). by rewrite Hg.
Qed.

(** X17.  With nothing learned yet, a question that no intent rule
    matches is left unresolved: [handle_query] returns [None]. *)
Theorem empty_store_unresolved s st d :
  self_data st = Some d →
  questions d = [] →
  find (λ rule, predicate rule (lower s)) intent_rules = None →
  handle_query s st = Returns None st.
Proof.
  intros Hd Hq Hrules. rewrite handle_query_router. unfold router.
  rewrite Hrules. apply (check_knowledge_base_none _ _ d Hd).
  by rewrite Hq.
Qed.

Lemma empty_store_unresolved_witness :
  handle_query "Are you halal?" (loaded default_data)
  = Returns None (loaded default_data).
Proof.
  apply (empty_store_unresolved "Are you halal?" (loaded default_data)
           default_data); reflexivity.
Defined.

Lemma resolve_gives_text rule u st d :
  self_data st = Some d → rule ∈ intent_rules → predicate rule u = true →
  ∃ text, resolve rule u st = Returns (Some text) st.
Proof.
  intros Hd Hin Hp. unfold intent_rules in Hin.
  assert (∀ m : M string, reads m →
            ∃ text, (Some <$> m) st = Returns (Some text) st) as Hfm.
  { intros m Hm. destruct (Hm st d Hd) as [r Hr]. exists r.
    by apply fmap_returns. }
  rewrite !elem_of_cons, elem_of_nil in Hin.
  destruct Hin as [->|[->|[->|[->|[->|[->|[->|[->|[]]]]]]]]];
    cbn [resolve pizza_rule sides_rule drinks_rule delivery_rule
         promotions_rule popular_rule hours_rule phone_rule].
  - apply Hfm, reads_get_menu_by_category.
  - apply Hfm, reads_get_menu_by_category.
  - apply Hfm, reads_get_menu_by_category.
  - cbn [predicate delivery_rule] in Hp.
    apply andb_true_iff in Hp as [_ Hany].
    destruct (existsb_find _ _ Hany) as [area ->].
    apply Hfm, reads_check_delivery_area.
  - apply Hfm, reads_get_active_promotions.
  - apply Hfm, reads_get_popular_items.
  - rewrite (bind_returns _ _ _ _ _ (get_data_returns _ _ Hd)). by eexists.
  - rewrite (bind_returns _ _ _ _ _ (get_data_returns _ _ Hd)). by eexists.
Qed.

(** X18.  A question that some intent rule matches is always resolved:
    [handle_query] returns a text, never [None], whatever the store
    holds. *)
Theorem rule_match_resolves s st d rule :
  self_data st = Some d →
  rule ∈ intent_rules → predicate rule (lower s) = true →
  ∃ text, handle_query s st = Returns (Some text) st.
Proof.
  intros Hd Hin Hp. rewrite handle_query_router. unfold router.
  destruct (find (λ rule, predicate rule (lower s)) intent_rules)
    as [first|] eqn:Hf.
  - apply find_some in Hf as [Hfin%list_elem_of_In Hfp].
    by apply (resolve_gives_text first _ st d).
  - exfalso. eapply find_none in Hf; [|by apply list_elem_of_In].
    simpl in Hf. congruence.
Qed.

Lemma rule_match_resolves_witness :
  ∃ text, handle_query "When do you OPEN?" (loaded default_data)
          = Returns (Some text) (loaded default_data).
Proof.
  apply (rule_match_resolves "When do you OPEN?" (loaded default_data)
           default_data hours_rule eq_refl).
  - unfold intent_rules. do 6 right. left.
  - reflexivity.
Defined.

(** X19.  The knowledge base never invents an answer: when no intent rule
    matches and [handle_query] returns a text, that text is the answer of
    an entry of the store whose question scores at least 0.6 against the
    lowercased input. *)
Theorem knowledge_answer_from_store s st d a :
  self_data st = Some d →
  find (λ rule, predicate rule (lower s)) intent_rules = None →
  handle_query s st = Returns (Some a) st →
  ∃ e r, e ∈ questions d ∧ answer e = a
         ∧ Difflib.close_enough cutoff (lower s) (question e)
           = Some (Some (r, question e))
         ∧ (cutoff <= r)%Q.
Proof.
  intros Hd Hrules. rewrite handle_query_router. unfold router.
  rewrite Hrules.
  destruct (get_close_matches_spec (lower s) (question <$> questions d) cutoff)
    as (res & Hg & [[-> _]|([r x] & -> & _ & Hbest & _)]).
  - by rewrite (check_knowledge_base_none _ _ d Hd Hg).
  - rewrite (check_knowledge_base_found _ _ d _ _ Hd Hg). simpl in *.
    destruct (find _ (questions d)) as [e|] eqn:Hf; [|done].
    simpl. intros [= <-]. apply find_some in Hf as [He%list_elem_of_In Hq].
    apply String.eqb_eq in Hq. exists e, r. rewrite Hq.
    repeat split; [done|done|].
    by apply close_enough_Some in Hbest as (_ & _ & ?).
Qed.

Lemma knowledge_answer_from_store_witness :
  ∃ e r, e ∈ [qa "is it halal?" "Yes, certified."]
         ∧ answer e = "Yes, certified."
         ∧ Difflib.close_enough cutoff (lower "Is it halall") (question e)
           = Some (Some (r, question e))
         ∧ (cutoff <= r)%Q.
Proof.
  apply (knowledge_answer_from_store "Is it halall"
           (loaded (with_questions default_data
                      [qa "is it halal?" "Yes, certified."]))
           (with_questions default_data [qa "is it halal?" "Yes, certified."])
           "Yes, certified." eq_refl).
  - reflexivity.
  - vm_compute. reflexivity.
Defined.

(** X20.  A question that the store holds, up to letter case of the
    input, and that no intent rule matches is answered by the first entry
    with that question, whatever else the store holds. *)
Theorem stored_question_answered s st d i e :
  self_data st = Some d →
  find (λ rule, predicate rule (lower s)) intent_rules = None →
  questions d !! i = Some e →
  question e = lower s →
  (∀ j e', (j < i)%nat → questions d !! j = Some e' →
           question e' ≠ lower s) →
  handle_query s st = Returns (Some (answer e)) st.
Proof.
  intros Hd Hrules Hi He Hlt.
  rewrite handle_query_router. unfold router. rewrite Hrules.
  erewrite check_knowledge_base_found; [|done|].
  - rewrite (find_first _ _ i e Hi); [done|by apply String.eqb_eq|].
    intros j e' ? Hj. apply String.eqb_neq. by eapply Hlt.
  - apply get_close_matches_exact; [apply cutoff_le_one|].
    apply list_elem_of_fmap. exists e. split; [done|].
    by apply list_elem_of_lookup_2 in Hi.
Qed.

Lemma stored_question_answered_witness :
  handle_query "ARE YOU HALAL?"
    (loaded (with_questions default_data
               [qa "are you halal" "Yes"; qa "are you halal?" "Yes, certified."]))
  = Returns (Some "Yes, certified.")
      (loaded (with_questions default_data
                 [qa "are you halal" "Yes"; qa "are you halal?" "Yes, certified."])).
Proof.
  apply (stored_question_answered "ARE YOU HALAL?" _
           (with_questions default_data
              [qa "are you halal" "Yes"; qa "are you halal?" "Yes, certified."])
           1 (qa "are you halal?" "Yes, certified.")).
  - reflexivity.
  - reflexivity.
  - reflexivity.
  - reflexivity.
  - intros [|j] e' Hj He'; [injection He' as <-; discriminate|lia].
Defined.

(** ** The loop: [run_chatbot] *)

(** [m] answers from the store alone: all objects that hold the store
    [d] get the same result, and keep their state. *)
Definition by_store {A} (m : M A) : Prop :=
  ∀ d, ∃ r, ∀ st, self_data st = Some d → m st = Returns r st.

Lemma by_store_ret {A} (x : A) : by_store (mret x).
Proof. intros d. by exists x. Qed.

Lemma by_store_bind {A B} (m : M A) (f : A → M B) :
  by_store m → (∀ x, by_store (f x)) → by_store (m ≫= f).
Proof.
  intros Hm Hf d. destruct (Hm d) as [x Hx]. destruct (Hf x d) as [y Hy].
  exists y. intros st Hd. rewrite (bind_returns _ _ _ _ _ (Hx st Hd)). auto.
Qed.

Lemma by_store_fmap {A B} (g : A → B) (m : M A) :
  by_store m → by_store (g <$> m).
Proof.
  intros Hm d. destruct (Hm d) as [x Hx]. exists (g x). intros st Hd.
  by rewrite (fmap_returns _ _ _ _ _ (Hx st Hd)).
Qed.

Lemma by_store_get_data : by_store get_data.
Proof. intros d. exists d. intros st. apply get_data_returns. Qed.

Lemma by_store_finished {A} (r : option A) : is_Some r → by_store (finished r).
Proof. intros [x ->] d. by exists x. Qed.

Create HintDb by_store.
#[local] Hint Resolve by_store_ret by_store_bind by_store_fmap
  by_store_get_data : by_store.

Lemma by_store_get_menu_by_category category :
  by_store (get_menu_by_category category).
Proof.
  unfold get_menu_by_category. apply by_store_bind; [auto with by_store|].
  intros d. repeat case_match; auto with by_store.
Qed.

Lemma by_store_check_delivery_area area : by_store (check_delivery_area area).
Proof.
  unfold check_delivery_area. apply by_store_bind; [auto with by_store|].
  intros d. case_match; auto with by_store.
Qed.

Lemma by_store_get_active_promotions : by_store get_active_promotions.
Proof.
  unfold get_active_promotions. apply by_store_bind; [auto with by_store|].
  intros d. case_match; auto with by_store.
Qed.

Lemma by_store_get_popular_items : by_store get_popular_items.
Proof.
  unfold get_popular_items. apply by_store_bind; [auto with by_store|].
  intros d. case_match; auto with by_store.
Qed.

Lemma by_store_check_knowledge_base u : by_store (check_knowledge_base u).
Proof.
  unfold check_knowledge_base. apply by_store_bind; [auto with by_store|].
  intros d. apply by_store_bind.
  - apply by_store_finished, get_close_matches_total.
  - intros [|best rest]; [auto with by_store|].
    apply by_store_bind; [auto with by_store|]. intros d'.
    case_match; auto with by_store.
Qed.

#[local] Hint Resolve by_store_get_menu_by_category
  by_store_check_delivery_area by_store_get_active_promotions
  by_store_get_popular_items by_store_check_knowledge_base : by_store.

Lemma by_store_router u : by_store (router intent_rules u).
Proof.
  unfold router.
  destruct (find _ intent_rules) as [rule|] eqn:Hf; [|auto with by_store].
  apply find_some in Hf as [Hin%list_elem_of_In _]. unfold intent_rules in Hin.
  rewrite !elem_of_cons, elem_of_nil in Hin.
  destruct Hin as [->|[->|[->|[->|[->|[->|[->|[->|[]]]]]]]]]; simpl;
    try case_match; auto 6 with by_store.
Qed.

(** The answer to a question depends on the store only, not on the file
    or the terminal. *)
Lemma handle_query_by_store s st1 st2 d r :
  self_data st1 = Some d → self_data st2 = Some d →
  returned (handle_query s st1) = Some r →
  handle_query s st2 = Returns r st2.
Proof.
  intros H1 H2. rewrite !handle_query_router.
  destruct (by_store_router (lower s) d) as [x Hx].
  rewrite (Hx st1 H1), (Hx st2 H2). simpl. by intros [= ->].
Qed.

(** The state after [input(prompt)] has read a line and left [rest]. *)
Definition prompted (st : State) (prompt : string) (rest : list string)
    : State :=
  {| disk := disk st; self_data := self_data st; stdin := rest;
     stdout := stdout st ++ [prompt] |}.

Definition printed (st : State) (line : string) : State :=
  {| disk := disk st; self_data := self_data st; stdin := stdin st;
     stdout := stdout st ++ [line] |}.

Lemma input_returns prompt st line rest :
  stdin st = line :: rest →
  input prompt st = Returns line (prompted st prompt rest).
Proof. intros H. unfold input. by rewrite H. Qed.

Lemma input_eof prompt st :
  stdin st = [] → input prompt st = Raises EOFError (prompted st prompt []).
Proof. intros H. unfold input. by rewrite H. Qed.

Definition you_prompt : string := nl +:+ "🍕 You: ".
Definition teach_prompt : string :=
  "📝 Please provide the answer, or type 'skip': ".

(** X21.  The word quit, in any letter case and with blanks around it,
    ends the loop: the round prints the farewell and breaks, and neither
    the store nor the file is touched. *)
Theorem quit_ends_loop now st line rest :
  stdin st = line :: rest →
  lower (strip line) = "quit" →
  chat_round now st
  = Returns false
      (printed (prompted st you_prompt rest)
         "🍕 Bot: Thanks for choosing Pizza Hut! Have a great day! 🍕").
Proof.
  intros Hin Hq. unfold chat_round.
  rewrite (bind_returns _ _ _ _ _ (input_returns _ _ _ _ Hin)).
  by rewrite Hq.
Qed.

Lemma quit_ends_loop_witness :
  chat_round "now" {| disk := Json default_data; self_data := Some default_data;
                      stdin := ["  QuIt  "; "more"]; stdout := [] |}
  = Returns false
      {| disk := Json default_data; self_data := Some default_data;
         stdin := ["more"];
         stdout := [ you_prompt;
           "🍕 Bot: Thanks for choosing Pizza Hut! Have a great day! 🍕" ] |}.
Proof.
  apply (quit_ends_loop "now"
           {| disk := Json default_data; self_data := Some default_data;
              stdin := ["  QuIt  "; "more"]; stdout := [] |}
           "  QuIt  " ["more"]); reflexivity.
Defined.

(** X22.  A line of blanks only is passed over: the round reads it and
    goes on without a response and without a look at the store. *)
Theorem blank_line_skipped now st line rest :
  stdin st = line :: rest →
  strip line = "" →
  chat_round now st = Returns true (prompted st you_prompt rest).
Proof.
  intros Hin Hb. unfold chat_round.
  rewrite (bind_returns _ _ _ _ _ (input_returns _ _ _ _ Hin)).
  by rewrite Hb.
Qed.

Lemma blank_line_skipped_witness :
  chat_round "now" {| disk := Absent; self_data := None;
                      stdin := ["   "]; stdout := [] |}
  = Returns true {| disk := Absent; self_data := None; stdin := [];
                    stdout := [you_prompt] |}.
Proof.
  apply (blank_line_skipped "now"
           {| disk := Absent; self_data := None; stdin := ["   "];
              stdout := [] |} "   " []); reflexivity.
Defined.

Lemma nonempty_true s : s ≠ "" → nonempty s = true.
Proof. by destruct s. Qed.

(** X23.  A question that is resolved uses one line of input: the round
    prints the response after "Bot:" and keeps the store and the file. *)
Theorem resolved_round_prints_response now st d line rest text :
  self_data st = Some d →
  stdin st = line :: rest →
  lower (strip line) ≠ "quit" → strip line ≠ "" →
  returned (handle_query (strip line) st) = Some (Some text) → text ≠ "" →
  chat_round now st
  = Returns true (printed (prompted st you_prompt rest) ("🍕 Bot: " +:+ text)).
Proof.
  intros Hd Hin Hq%String.eqb_neq Hne%nonempty_true Hr Ht.
  unfold chat_round.
  rewrite (bind_returns _ _ _ _ _ (input_returns _ _ _ _ Hin)).
  rewrite Hq, Hne. cbn [negb].
  rewrite (bind_returns _ _ _ _ _
             (handle_query_by_store _ st (prompted st you_prompt rest) d _
                Hd Hd Hr)).
  by destruct text.
Qed.

Lemma resolved_round_prints_response_witness :
  chat_round "now" {| disk := Json default_data; self_data := Some default_data;
                      stdin := [" What is your phone number? "]; stdout := [] |}
  = Returns true
      {| disk := Json default_data; self_data := Some default_data;
         stdin := [];
         stdout := [you_prompt; "🍕 Bot: Call us at: (123) 456-7890"] |}.
Proof.
  apply (resolved_round_prints_response "now"
           {| disk := Json default_data; self_data := Some default_data;
              stdin := [" What is your phone number? "]; stdout := [] |}
           default_data " What is your phone number? " []
           "Call us at: (123) 456-7890");
    (reflexivity || discriminate).
Defined.

Definition teach_me : string :=
  "🍕 Bot: I don't have that information yet. Can you help me learn?".

(** The state in which the answer to the teaching prompt has been read. *)
Definition asked (st : State) (rest : list string) (rest' : list string)
    : State :=
  prompted (printed (prompted st you_prompt rest) teach_me) teach_prompt rest'.

Lemma truthy_None_or_empty r : truthy r = false → r = None ∨ r = Some "".
Proof. destruct r as [[|c s]|]; auto. done. Qed.

(** X24.  With "skip", in any letter case, or with a blank answer to the
    teaching prompt nothing is learned: the round goes on with the store
    and the file as they were. *)
Theorem skip_learns_nothing now st d line ans rest r :
  self_data st = Some d →
  stdin st = line :: ans :: rest →
  lower (strip line) ≠ "quit" → strip line ≠ "" →
  returned (handle_query (strip line) st) = Some r → truthy r = false →
  lower (strip ans) = "skip" ∨ strip ans = "" →
  chat_round now st = Returns true (asked st (ans :: rest) rest).
Proof.
  intros Hd Hin Hq%String.eqb_neq Hne%nonempty_true Hr Ht Hskip.
  unfold chat_round.
  rewrite (bind_returns _ _ _ _ _ (input_returns _ _ _ _ Hin)).
  rewrite Hq, Hne. cbn [negb].
  rewrite (bind_returns _ _ _ _ _
             (handle_query_by_store _ st (prompted st you_prompt (ans :: rest))
                d _ Hd Hd Hr)).
  rewrite Ht.
  rewrite (bind_returns _ _ _ (())
             (printed (prompted st you_prompt (ans :: rest)) teach_me));
    [|done].
  rewrite (bind_returns _ _ _ ans (asked st (ans :: rest) rest)); [|done].
  by destruct Hskip as [-> | ->].
Qed.

Lemma skip_learns_nothing_witness :
  chat_round "now" {| disk := Json default_data; self_data := Some default_data;
                      stdin := ["Are you halal?"; " SKIP "; "quit"];
                      stdout := [] |}
  = Returns true
      {| disk := Json default_data; self_data := Some default_data;
         stdin := ["quit"];
         stdout := [you_prompt; teach_me; teach_prompt] |}.
Proof.
  apply (skip_learns_nothing "now"
           {| disk := Json default_data; self_data := Some default_data;
              stdin := ["Are you halal?"; " SKIP "; "quit"]; stdout := [] |}
           default_data "Are you halal?" " SKIP " ["quit"] None);
    try reflexivity; try discriminate. by left.
Defined.

Lemma unresolved_no_rule s st d :
  self_data st = Some d →
  returned (handle_query s st) = Some None →
  find (λ rule, predicate rule (lower s)) intent_rules = None.
Proof.
  intros Hd Hr.
  destruct (find (λ rule, predicate rule (lower s)) intent_rules)
    as [rule|] eqn:Hf; [|done].
  rewrite handle_query_router in Hr. unfold router in Hr. rewrite Hf in Hr.
  apply find_some in Hf as [Hin%list_elem_of_In Hp].
  destruct (resolve_gives_text rule (lower s) st d Hd Hin Hp) as [text Ht].
  by rewrite Ht in Hr.
Qed.

Lemma unresolved_not_stored s st d :
  self_data st = Some d →
  returned (handle_query s st) = Some None →
  Forall (λ e, question e ≠ lower s) (questions d).
Proof.
  intros Hd Hr. pose proof (unresolved_no_rule s st d Hd Hr) as Hrules.
  apply Forall_forall. intros e He Hq.
  rewrite handle_query_router in Hr. unfold router in Hr.
  rewrite Hrules in Hr.
  rewrite (check_knowledge_base_found _ st d (lower s) []) in Hr; [|done|].
  - destruct (find (λ q, String.eqb (question q) (lower s)) (questions d))
      eqn:Hf; [done|].
    eapply find_none in Hf; [|by apply list_elem_of_In].
    simpl in Hf. by apply String.eqb_neq in Hf.
  - apply get_close_matches_exact; [apply cutoff_le_one|].
    apply list_elem_of_fmap. by exists e.
Qed.

(** X25.  Teaching works within the loop: when a question is unresolved
    and the user gives an answer (not blank, not "skip"), the round
    stores the pair, saves the store, and from then on the same question
    is resolved with that answer. *)
Theorem taught_answer_is_given now st d line ans rest :
  self_data st = Some d →
  stdin st = line :: ans :: rest →
  lower (strip line) ≠ "quit" → strip line ≠ "" →
  returned (handle_query (strip line) st) = Some None →
  lower (strip ans) ≠ "skip" → strip ans ≠ "" →
  ∃ st' d',
    chat_round now st = Returns true st'
    ∧ self_data st' = Some d' ∧ disk st' = Json d' ∧ stdin st' = rest
    ∧ questions d'
      = questions d ++ [{| question := lower (strip line);
                           answer := strip ans; category := "general";
                           added_date := now |}]
    ∧ handle_query (strip line) st' = Returns (Some (strip ans)) st'.
Proof.
  intros Hd Hin Hq Hne Hr Hs Ha.
  pose proof (unresolved_no_rule _ st d Hd Hr) as Hrules.
  pose proof (unresolved_not_stored _ st d Hd Hr) as Hnew.
  apply String.eqb_neq in Hq, Hs. apply nonempty_true in Hne, Ha.
  unfold chat_round.
  rewrite (bind_returns _ _ _ _ _ (input_returns _ _ _ _ Hin)).
  rewrite Hq, Hne. cbn [negb].
  rewrite (bind_returns _ _ _ _ _
             (handle_query_by_store _ st (prompted st you_prompt (ans :: rest))
                d _ Hd Hd Hr)).
  cbn [truthy].
  rewrite (bind_returns _ _ _ (())
             (printed (prompted st you_prompt (ans :: rest)) teach_me));
    [|done].
  rewrite (bind_returns _ _ _ ans (asked st (ans :: rest) rest)); [|done].
  rewrite Hs, Ha. cbn [negb andb].
  rewrite (bind_returns _ _ _ _ _
             (learn_new_response_returns now (strip line) (strip ans)
                (asked st (ans :: rest) rest) d Hd)).
  cbv zeta. do 2 eexists. split; [reflexivity|].
  split; [reflexivity|]. split; [reflexivity|]. split; [reflexivity|].
  split; [reflexivity|].
  rewrite handle_query_router. unfold router. rewrite Hrules.
  erewrite check_knowledge_base_found; [|reflexivity|].
  - simpl. rewrite find_last; [done| |apply String.eqb_refl].
    eapply Forall_impl; [done|]. intros e He. by apply String.eqb_neq.
  - apply get_close_matches_exact; [apply cutoff_le_one|]. simpl.
    rewrite fmap_app. apply elem_of_app. right. by left.
Qed.

Lemma taught_answer_is_given_witness :
  ∃ st' d',
    chat_round "now"
      {| disk := Json default_data; self_data := Some default_data;
         stdin := [" Are you halal? "; " Yes, certified. "; "quit"];
         stdout := [] |}
    = Returns true st'
    ∧ self_data st' = Some d' ∧ disk st' = Json d' ∧ stdin st' = ["quit"]
    ∧ questions d'
      = [{| question := "are you halal?"; answer := "Yes, certified.";
            category := "general"; added_date := "now" |}]
    ∧ handle_query "Are you halal?" st' = Returns (Some "Yes, certified.") st'.
Proof.
  apply (taught_answer_is_given "now"
           {| disk := Json default_data; self_data := Some default_data;
              stdin := [" Are you halal? "; " Yes, certified. "; "quit"];
              stdout := [] |}
           default_data " Are you halal? " " Yes, certified. " ["quit"]);
    try reflexivity; discriminate.
Defined.

Lemma bind_raises {A B} (m : M A) (f : A → M B) st e st' :
  m st = Raises e st' → (m ≫= f) st = Raises e st'.
Proof. intros H. unfold mbind, M_bind. by rewrite H. Qed.

(** A round returns with less input left and the store still loaded,
    breaking only at a quit line, or the input has ended. *)
Lemma chat_round_progress now st d :
  self_data st = Some d →
  (∃ b st' d' line rest,
     stdin st = line :: rest
     ∧ chat_round now st = Returns b st'
     ∧ self_data st' = Some d'
     ∧ (stdin st' = rest ∨ ∃ ans, rest = ans :: stdin st')
     ∧ (b = false → lower (strip line) = "quit"))
  ∨ (∃ st', chat_round now st = Raises EOFError st').
Proof.
  intros Hd. unfold chat_round.
  destruct (stdin st) as [|line rest] eqn:Hin.
  { right. eexists. apply bind_raises. by apply input_eof. }
  rewrite (bind_returns _ _ _ _ _ (input_returns _ _ _ _ Hin)).
  destruct (String.eqb_spec (lower (strip line)) "quit") as [Hq|Hq].
  { left. do 3 eexists. exists line, rest. split; [done|].
    split; [reflexivity|]. simpl. split; [done|]. split; [by left|done]. }
  destruct (nonempty (strip line)); cbn [negb].
  2: { left. do 3 eexists. exists line, rest. split; [done|].
       split; [reflexivity|]. simpl. split; [done|]. split; [by left|done]. }
  destruct (reads_router (lower (strip line)) (prompted st you_prompt rest) d Hd)
    as [r Hr].
  rewrite <- handle_query_router in Hr.
  rewrite (bind_returns _ _ _ _ _ Hr).
  destruct (truthy r).
  { left. do 3 eexists. exists line, rest. split; [done|].
    split; [reflexivity|]. simpl. split; [done|]. split; [by left|done]. }
  rewrite (bind_returns _ _ _ (())
             (printed (prompted st you_prompt rest) teach_me)); [|done].
  destruct rest as [|ans rest'].
  { right. eexists. apply bind_raises. by apply input_eof. }
  rewrite (bind_returns _ _ _ ans (asked st (ans :: rest') rest')); [|done].
  destruct (negb _ && _).
  - rewrite (bind_returns _ _ _ _ _
               (learn_new_response_returns now (strip line) (strip ans)
                  (asked st (ans :: rest') rest') d Hd)).
    left. do 3 eexists. exists line, (ans :: rest'). split; [done|].
    split; [reflexivity|]. simpl. split; [done|].
    split; [right; by exists ans|done].
  - left. do 3 eexists. exists line, (ans :: rest'). split; [done|].
    split; [reflexivity|]. simpl. split; [done|].
    split; [right; by exists ans|done].
Qed.

Lemma chat_loop_ends now fuel st d :
  self_data st = Some d → (length (stdin st) < fuel)%nat →
  (∃ st', chat_loop now fuel st = Returns () st')
  ∨ (∃ st', chat_loop now fuel st = Raises EOFError st').
Proof.
  revert st d. induction fuel as [|fuel IH]; intros st d Hd Hlen; [lia|].
  cbn [chat_loop].
  destruct (chat_round_progress now st d Hd)
    as [(b & st' & d' & line & rest & Hin & Hr & Hd' & Hrest & _)|(st' & Hr)].
  - rewrite (bind_returns _ _ _ _ _ Hr). destruct b.
    + apply (IH st' d' Hd'). rewrite Hin in Hlen. simpl in Hlen.
      destruct Hrest as [->|[ans ->]]; simpl in *; lia.
    + left. by eexists.
  - right. exists st'. by apply bind_raises.
Qed.

Lemma chat_loop_quit now fuel st d st' :
  self_data st = Some d →
  chat_loop now fuel st = Returns () st' →
  ∃ line, line ∈ stdin st ∧ lower (strip line) = "quit".
Proof.
  revert st d. induction fuel as [|fuel IH]; intros st d Hd; [done|].
  cbn [chat_loop].
  destruct (chat_round_progress now st d Hd)
    as [(b & st1 & d1 & line & rest & Hin & Hr & Hd1 & Hrest & Hb)|(st1 & Hr)].
  - rewrite (bind_returns _ _ _ _ _ Hr), Hin. destruct b.
    + intros Hl. destruct (IH st1 d1 Hd1 Hl) as (l & Hl1 & Hl2).
      exists l. split; [|done]. right.
      destruct Hrest as [<-|[ans ->]]; [done|by right].
    + intros _. exists line. split; [by left|by apply Hb].
  - by rewrite (bind_raises _ _ _ _ _ Hr).
Qed.

(** X26.  The loop of [run_chatbot] comes to an end: every round reads
    at least one line of the input, so started with a loaded store the
    rounds that the lines allow, and one more, are enough for
    [run_chatbot] to return or to raise. *)
Theorem run_chatbot_ends now st d :
  self_data st = Some d →
  ∃ st', run_chatbot now st = Returns () st'
         ∨ ∃ e, run_chatbot now st = Raises e st'.
Proof.
  intros Hd. unfold run_chatbot.
  set (st1 := {| disk := disk st; self_data := self_data st;
                 stdin := stdin st;
                 stdout := foldl (λ out line, out ++ [line]) (stdout st)
                                 banner |}).
  rewrite (bind_returns _ _ _ (()) st1); [|reflexivity].
  rewrite (bind_returns _ _ _ (stdin st) st1); [|reflexivity].
  destruct (chat_loop_ends now (S (length (stdin st))) st1 d Hd)
    as [[st' Hl]|[st' Hl]]; [simpl; lia|..];
    exists st'; [by left|right; by exists EOFError].
Qed.

Lemma run_chatbot_ends_witness :
  ∃ st', run_chatbot "now" {| disk := Json default_data;
                             self_data := Some default_data;
                             stdin := ["any deals?"; "are you halal?"];
                             stdout := [] |} = Returns () st'
         ∨ ∃ e, run_chatbot "now" {| disk := Json default_data;
                                    self_data := Some default_data;
                                    stdin := ["any deals?"; "are you halal?"];
                                    stdout := [] |} = Raises e st'.
Proof.
  apply (run_chatbot_ends "now"
           {| disk := Json default_data; self_data := Some default_data;
              stdin := ["any deals?"; "are you halal?"]; stdout := [] |}
           default_data eq_refl).
Defined.

(** X27.  [run_chatbot] returns only by quit: when it returns, one of the
    input lines, stripped and lowercased, is the word quit. *)
Theorem run_chatbot_returns_by_quit now st d st' :
  self_data st = Some d →
  run_chatbot now st = Returns () st' →
  ∃ line, line ∈ stdin st ∧ lower (strip line) = "quit".
Proof.
  intros Hd. unfold run_chatbot.
  set (st1 := {| disk := disk st; self_data := self_data st;
                 stdin := stdin st;
                 stdout := foldl (λ out line, out ++ [line]) (stdout st)
                                 banner |}).
  rewrite (bind_returns _ _ _ (()) st1); [|reflexivity].
  rewrite (bind_returns _ _ _ (stdin st) st1); [|reflexivity].
  apply (chat_loop_quit now _ st1 d st' Hd).
Qed.

Lemma run_chatbot_returns_by_quit_witness :
  ∃ line, line ∈ ["any deals?"; " Quit "] ∧ lower (strip line) = "quit".
Proof.
  eapply (run_chatbot_returns_by_quit "now"
            {| disk := Json default_data; self_data := Some default_data;
               stdin := ["any deals?"; " Quit "]; stdout := [] |}
            default_data _ eq_refl).
  vm_compute. reflexivity.
Defined.
